(** * ClientApp: the driver-tracking client, its services as Rocq functions

    The services of [src/services] and [src/utils] are embedded as pure
    functions.  Asynchronous methods are modelled by their sequential
    behaviour (one call runs to completion); what the platform decides
    (whether a Firestore write succeeds, what [JSON.parse] returns, the
    clock) is an explicit parameter.  A JavaScript [try]/[catch] is a
    [match] on a [result]. *)

From Stdlib Require Import ZArith QArith Reals Lia Lra String Ascii List Bool.
From Stdlib Require Import DecimalString.
From stdpp Require Import gmap strings list.
Import ListNotations.

Set Implicit Arguments.

(** ** Exceptions *)

(** An error value: [new Error(message)] and the built-in errors the
    modelled code can meet. *)
Inductive JsError : Type :=
| Error (message : string)
| TypeError (message : string)
| SyntaxError (message : string)
| NotAnError (code : nat)    (* a thrown value that is no instance of Error *)
| UndefinedThrown.           (* [throw undefined] *)

(** The outcome of a call: a value, or a thrown error / rejected promise. *)
Inductive result (A : Type) : Type :=
| Return (a : A)
| Throw (e : JsError).
Arguments Return {A} a.
Arguments Throw {A} e.

Definition is_return {A} (r : result A) : bool :=
  match r with Return _ => true | Throw _ => false end.

(** Truthiness of a [string | null] value: [null] and [''] are falsy. *)
Definition truthy_string (s : option string) : bool :=
  match s with
  | None => false
  | Some s => negb (String.eqb s EmptyString)
  end.

(** ** TripLocationService (services/tripLocationService, in
       [src/services/locationEmulator.ts] lines 899-1168) *)

Module TripLocation.
Section Service.

(** JavaScript numbers are carried around by this service, never computed
    with; the model is parametric in their type. *)
Context {num : Type}.

Record Coordinate : Type := {
  latitude : num;
  longitude : num;
  timestamp : num;
  accuracy : option num;
  speed : option num;
  heading : option num
}.

(** The private fields of the class. *)
Record Service : Type := {
  pendingUpdates : list Coordinate;
  currentTripId : option string
}.

(** Firestore as the client sees it: every [update] issued on
    [trip_locations/{tripId}], oldest first, with whether it succeeded, and
    the documents added to the [coordinates] subcollection. *)
Record Firestore : Type := {
  update_calls : list (string * Coordinate * bool);
  history_docs : list (string * Coordinate)
}.

(** The network: the outcome of the k-th [update] call (counted from 0 over
    the life of the process) and whether the history [add] that follows it
    succeeds. *)
Variable firestore_update : nat -> result unit.
Variable firestore_add : nat -> bool.

Definition World : Type := (Service * Firestore)%type.

Definition initial : Service :=
  {| pendingUpdates := []; currentTripId := None |}.

Definition push_pending (c : Coordinate) (s : Service) : Service :=
  {| pendingUpdates := pendingUpdates s ++ [c];
     currentTripId := currentTripId s |}.

Definition clear_pending (s : Service) : Service :=
  {| pendingUpdates := []; currentTripId := currentTripId s |}.

(** [addToHistory]: the [add] is attempted; its failure is logged and
    swallowed. *)
Definition addToHistory (k : nat) (tripId : string) (c : Coordinate)
    (db : Firestore) : Firestore :=
  if firestore_add k
  then {| update_calls := update_calls db;
          history_docs := history_docs db ++ [(tripId, c)] |}
  else db.

Definition log_update (tripId : string) (c : Coordinate) (ok : bool)
    (db : Firestore) : Firestore :=
  {| update_calls := update_calls db ++ [(tripId, c, ok)];
     history_docs := history_docs db |}.

(** [updateCurrentLocation(tripId, coordinate)]. *)
Definition updateCurrentLocation (tripId : string) (c : Coordinate)
    (w : World) : result unit * World :=
  let '(s, db) := w in
  let k := length (update_calls db) in
  match firestore_update k with
  | Return _ =>
      (Return tt, (s, addToHistory k tripId c (log_update tripId c true db)))
  | Throw e =>
      (* catch: queue for retry, rethrow *)
      (Throw e, (push_pending c s, log_update tripId c false db))
  end.

(** One iteration of the [for ... of] loop of [retryPendingUpdates].
    [this.currentTripId] is read at each iteration; with a [null] id
    [firestore().collection().doc(null)] throws inside the [try] of
    [updateCurrentLocation], which queues the coordinate and rethrows. *)
Definition retry_iteration (w : World) (c : Coordinate) : World :=
  let attempt :=
    match currentTripId (fst w) with
    | Some tripId => updateCurrentLocation tripId c w
    | None => (Throw (Error "documentPath must be a string"),
               (push_pending c (fst w), snd w))
    end in
  match attempt with
  | (Return _, w') => w'
  | (Throw _, (s', db')) =>
      (* catch: re-queue failed update *)
      (push_pending c s', db')
  end.

(** [retryPendingUpdates()]. *)
Definition retryPendingUpdates (w : World) : World :=
  let '(s, db) := w in
  if (length (pendingUpdates s) =? 0)%nat || negb (truthy_string (currentTripId s))
  then w
  else
    let updates := pendingUpdates s in
    fold_left retry_iteration updates (clear_pending s, db).

Definition getPendingUpdatesCount (s : Service) : nat :=
  length (pendingUpdates s).

Definition getCurrentTripId (s : Service) : option string := currentTripId s.

Definition setCurrentTripId (tripId : string) (s : Service) : Service :=
  {| pendingUpdates := pendingUpdates s; currentTripId := Some tripId |}.

(** [initializeTripLocation(tripId, ...)]: [set_ok] tells whether the
    [set] of the trip document succeeds; only then is the current trip id
    recorded. *)
Definition initializeTripLocation (set_ok : bool) (tripId : string)
    (s : Service) : result unit * Service :=
  if set_ok
  then (Return tt, setCurrentTripId tripId s)
  else (Throw (Error "Failed to initialize trip location"), s).

(** [completeTripLocation(tripId)]: on success the current trip id is
    reset to [null]; a failure is rethrown as it is. *)
Definition completeTripLocation (outcome : result unit) (tripId : string)
    (s : Service) : result unit * Service :=
  match outcome with
  | Return _ =>
      (Return tt, {| pendingUpdates := pendingUpdates s; currentTripId := None |})
  | Throw e => (Throw e, s)
  end.

(** What one retried coordinate leaves in the queue, by the outcome of
    its write (the k-th of the process): nothing, or the coordinate twice,
    pushed once by [updateCurrentLocation] and once by the [catch] of the
    loop. *)
Definition requeued (k : nat) (c : Coordinate) : list Coordinate :=
  if is_return (firestore_update k) then [] else [c; c].

Fixpoint requeued_from (k : nat) (updates : list Coordinate) : list Coordinate :=
  match updates with
  | [] => []
  | c :: rest => requeued k c ++ requeued_from (S k) rest
  end.

(** The [update] calls a retry of [updates] issues, from the k-th on. *)
Fixpoint attempts_from (k : nat) (tripId : string) (updates : list Coordinate)
    : list (string * Coordinate * bool) :=
  match updates with
  | [] => []
  | c :: rest =>
      (tripId, c, is_return (firestore_update k)) :: attempts_from (S k) tripId rest
  end.

(** A run of location callbacks: each calls [updateCurrentLocation] and
    the caller ignores the outcome. *)
Definition updateAll (calls : list (string * Coordinate)) (w : World) : World :=
  fold_left (fun w tc => snd (updateCurrentLocation (fst tc) (snd tc) w)) calls w.

End Service.
End TripLocation.

(** ** JavaScript values, as far as the authentication service meets them *)

Module Js.

(** A number value.  A finite double is a rational, so comparisons on
    [Finite] are those of JavaScript. *)
Inductive Number : Type :=
| NaN
| PosInfinity
| NegInfinity
| Finite (q : Q).

Set Warnings "-register-all".
Inductive Value : Type :=
| Undefined
| Null
| Boolean (b : bool)
| Num (n : Number)
| Str (s : string)
| Array (items : list Value)
| Object (props : list (string * Value)).

(** [!!v]. *)
Definition truthy (v : Value) : bool :=
  match v with
  | Undefined | Null => false
  | Boolean b => b
  | Num NaN => false
  | Num (Finite q) => negb (Qeq_bool q 0)
  | Num _ => true
  | Str s => negb (String.eqb s EmptyString)
  | Array _ | Object _ => true
  end.

Fixpoint lookup_prop (k : string) (props : list (string * Value)) : option Value :=
  match props with
  | [] => None
  | (k', v) :: rest => if String.eqb k' k then Some v else lookup_prop k rest
  end.

(** [v.k] for a property name [k] that no prototype defines ([exp], [jwt],
    [name], [id]): a [TypeError] on [null] and [undefined], the own
    property of an object, [undefined] otherwise. *)
Definition get (v : Value) (k : string) : result Value :=
  match v with
  | Undefined | Null => Throw (TypeError "Cannot read property of null")
  | Object props =>
      Return (match lookup_prop k props with Some x => x | None => Undefined end)
  | _ => Return Undefined
  end.

(** [o[k] = v] on the property list: an existing key keeps its place. *)
Fixpoint set_prop (k : string) (v : Value) (props : list (string * Value))
    : list (string * Value) :=
  match props with
  | [] => [(k, v)]
  | (k', v') :: rest =>
      if String.eqb k' k then (k', v) :: rest else (k', v') :: set_prop k v rest
  end.

Definition is_digit (c : ascii) : bool :=
  (48 <=? nat_of_ascii c)%nat && (nat_of_ascii c <=? 57)%nat.

Definition digit_value (c : ascii) : Z := Z.of_nat (nat_of_ascii c) - 48.

Fixpoint digits_value_from (acc : Z) (s : list ascii) : option Z :=
  match s with
  | [] => Some acc
  | c :: rest =>
      if is_digit c then digits_value_from (10 * acc + digit_value c) rest
      else None
  end.

(** The value of a non-empty string of decimal digits. *)
Definition digits_value (s : string) : option Z :=
  match list_ascii_of_string s with
  | [] => None
  | l => digits_value_from 0 l
  end.

(** What the platform provides. *)
Class Platform : Type := {
  (** [JSON.parse]; [None] is a thrown [SyntaxError]. *)
  JSON_parse : string -> option Value;
  (** [JSON.stringify] on a value that came out of [JSON.parse]. *)
  JSON_stringify : Value -> string;
  (** [StringToNumber] on the strings that are not plain digit strings
      (signs, fractions, exponents, hexadecimal, white space, ...). *)
  StringToNumber_other : string -> Number;
  (** [ToPrimitive] with hint number on an array or an object. *)
  ToPrimitive_object : Value -> result Value
}.

Section WithPlatform.
Context {P : Platform}.

Definition StringToNumber (s : string) : Number :=
  match digits_value s with
  | Some z => Finite (inject_Z z)
  | None => StringToNumber_other s
  end.

(** [ToNumber] on a primitive value. *)
Definition ToNumber (v : Value) : Number :=
  match v with
  | Undefined => NaN
  | Null => Finite 0
  | Boolean b => Finite (if b then 1 else 0)
  | Num n => n
  | Str s => StringToNumber s
  | Array _ | Object _ => NaN
  end.

(** [n > t] for a number [n] and an integer [t]. *)
Definition number_gt (n : Number) (t : Z) : bool :=
  match n with
  | NaN => false
  | PosInfinity => true
  | NegInfinity => false
  | Finite q => negb (Qle_bool q (inject_Z t))
  end.

(** The number [n] is an instant not after [t]. *)
Definition not_after (n : Number) (t : Z) : Prop :=
  match n with
  | Finite q => (q <= inject_Z t)%Q
  | NegInfinity => True
  | NaN | PosInfinity => False
  end.

(** [v > t] where [t] is a number: the operands are converted with
    [ToPrimitive] and [ToNumber]; a comparison with [NaN] is [false]. *)
Definition gt (v : Value) (t : Z) : result bool :=
  match v with
  | Array _ | Object _ =>
      match ToPrimitive_object v with
      | Return (Array _) | Return (Object _) =>
          Throw (TypeError "Cannot convert object to primitive value")
      | Return p => Return (number_gt (ToNumber p) t)
      | Throw e => Throw e
      end
  | _ => Return (number_gt (ToNumber v) t)
  end.

End WithPlatform.
End Js.

(** ** ApiAuthService ([src/services/apiAuth.ts] lines 1-257) *)

Module ApiAuth.

Definition AUTH_TOKEN_KEY : string := "auth_token".
Definition USER_DATA_KEY : string := "user_data".

(** *** AsyncStorage: string keys to string values; any operation is
    rejected while the store is not [available]. *)
Record AsyncStorage : Type := {
  items : gmap string string;
  available : bool
}.

Definition getItem (key : string) (st : AsyncStorage) : result (option string) :=
  if available st then Return (items st !! key)
  else Throw (NotAnError 0).

Fixpoint all_strings (kvs : list (string * Js.Value)) : option (list (string * string)) :=
  match kvs with
  | [] => Some []
  | (k, Js.Str v) :: rest =>
      match all_strings rest with
      | Some l => Some ((k, v) :: l)
      | None => None
      end
  | _ => None
  end.

(** [multiSet]: the values have to be strings; the pairs are written in
    order, or nothing is written. *)
Definition multiSet (kvs : list (string * Js.Value)) (st : AsyncStorage)
    : result unit * AsyncStorage :=
  if available st then
    match all_strings kvs with
    | Some l =>
        (Return tt,
         {| items := fold_left (fun m kv => <[fst kv := snd kv]> m) l (items st);
            available := available st |})
    | None => (Throw (NotAnError 1), st)
    end
  else (Throw (NotAnError 0), st).

Definition multiRemove (keys : list string) (st : AsyncStorage)
    : result unit * AsyncStorage :=
  if available st then
    (Return tt,
     {| items := fold_left (fun m k => delete k m) keys (items st);
        available := available st |})
  else (Throw (NotAnError 0), st).

(** *** Base64 and the token check *)

Definition chars : string :=
  "ABCDEFGHIJKLMNOPQRSTUVWXYZabcdefghijklmnopqrstuvwxyz0123456789+/".

Fixpoint indexOf_from (i : Z) (c : ascii) (s : string) : Z :=
  match s with
  | EmptyString => (-1)%Z
  | String x rest => if Ascii.eqb x c then i else indexOf_from (i + 1)%Z c rest
  end.

(** [chars.indexOf(str.charAt(i))]: [charAt] past the end is [''], whose
    index is 0. *)
Definition index_at (c : option ascii) : Z :=
  match c with
  | Some c => indexOf_from 0%Z c chars
  | None => 0%Z
  end.

(** [String.fromCharCode(n)] for [0 <= n <= 255]. *)
Definition fromCharCode (n : Z) : ascii := ascii_of_N (Z.to_N n).

(** The body of the decoding loop on the four indices of a group. *)
Definition decode_group (a b c d : Z) : list ascii :=
  let bitmap :=
    Z.lor (Z.lor (Z.lor (Z.shiftl a 18) (Z.shiftl b 12)) (Z.shiftl c 6)) d in
  [fromCharCode (Z.land (Z.shiftr bitmap 16) 255)]
  ++ (if (c =? 64)%Z then [] else [fromCharCode (Z.land (Z.shiftr bitmap 8) 255)])
  ++ (if (d =? 64)%Z then [] else [fromCharCode (Z.land bitmap 255)]).

(** [while (i < str.length) { ... }], four characters at a time. *)
Fixpoint decode_loop (str : list ascii) : list ascii :=
  match str with
  | [] => []
  | a :: b :: c :: d :: rest =>
      decode_group (index_at (Some a)) (index_at (Some b))
                   (index_at (Some c)) (index_at (Some d))
      ++ decode_loop rest
  | [a; b; c] =>
      decode_group (index_at (Some a)) (index_at (Some b))
                   (index_at (Some c)) (index_at None)
  | [a; b] =>
      decode_group (index_at (Some a)) (index_at (Some b))
                   (index_at None) (index_at None)
  | [a] =>
      decode_group (index_at (Some a)) (index_at None)
                   (index_at None) (index_at None)
  end.

(** [while (str.length % 4) str += '='] (at most three turns). *)
Fixpoint pad (turns : nat) (str : list ascii) : list ascii :=
  match turns with
  | O => str
  | S turns' =>
      if (length str mod 4 =? 0)%nat then str
      else pad turns' (str ++ ["="%char])
  end.

(** [base64Decode(str)]; its [try] block cannot throw. *)
Definition base64Decode (str : string) : string :=
  string_of_list_ascii (decode_loop (pad 3 (list_ascii_of_string str))).

(** [s.split(sep)] for a one-character separator. *)
Fixpoint split (sep : ascii) (s : list ascii) : list (list ascii) :=
  match s with
  | [] => [[]]
  | c :: rest =>
      if Ascii.eqb c sep then [] :: split sep rest
      else match split sep rest with
           | piece :: pieces => (c :: piece) :: pieces
           | [] => [[c]]
           end
  end.

(** [s.replace(/x/g, y)] for characters [x] and [y]. *)
Definition replace_all (x y : ascii) (s : list ascii) : list ascii :=
  map (fun c => if Ascii.eqb c x then y else c) s.

(** The two replacements of [isTokenValid] on one character. *)
Definition to_standard (c : ascii) : ascii :=
  let c1 := if Ascii.eqb c "-"%char then "+"%char else c in
  if Ascii.eqb c1 "_"%char then "/"%char else c1.

(** [Math.floor(Date.now() / 1000)], [Date.now()] in milliseconds. *)
Definition currentTime (now_ms : Z) : Z := (now_ms / 1000)%Z.

Section WithPlatform.
Context {P : Js.Platform}.

(** The text handed to [JSON.parse]: the second piece of the token, with
    the two replacements, decoded; [None] when the token has no dot. *)
Definition payload_text (token : string) : option string :=
  match nth_error (split "."%char (list_ascii_of_string token)) 1 with
  | None => None
  | Some base64Url =>
      Some (base64Decode (string_of_list_ascii
              (replace_all "_"%char "/"%char (replace_all "-"%char "+"%char base64Url))))
  end.

(** A token that is no well-formed JWT for the check: no dot, a payload
    text that is not JSON, a [null] payload, or a payload without [exp]. *)
Definition malformed (token : string) : Prop :=
  payload_text token = None
  \/ (exists text, payload_text token = Some text /\ Js.JSON_parse text = None)
  \/ (exists text, payload_text token = Some text /\ Js.JSON_parse text = Some Js.Null)
  \/ (exists text payload,
        payload_text token = Some text /\ Js.JSON_parse text = Some payload
        /\ Js.get payload "exp" = Return Js.Undefined).

(** A platform whose [JSON.parse] rejects a text that ends with the
    character of code 255 (as the one of JavaScript does: a JSON text ends
    with a brace, a bracket, a quote, a digit, a letter of a literal or
    white space). *)
Definition rejects_trailing_255 : Prop :=
  forall pre : list ascii,
    Js.JSON_parse (string_of_list_ascii (pre ++ ["255"%char])) = None.

(** The [try] block of [isTokenValid]. *)
Definition isTokenValid_try (token : string) (now_ms : Z) : result bool :=
  match nth_error (split "."%char (list_ascii_of_string token)) 1 with
  | None => Throw (TypeError "Cannot read property replace of undefined")
  | Some base64Url =>
      let base64 := replace_all "_"%char "/"%char (replace_all "-"%char "+"%char base64Url) in
      match Js.JSON_parse (base64Decode (string_of_list_ascii base64)) with
      | None => Throw (SyntaxError "JSON Parse error")
      | Some payload =>
          match Js.get payload "exp" with
          | Throw e => Throw e
          | Return exp => Js.gt exp (currentTime now_ms)
          end
      end
  end.

(** [isTokenValid(token)]: whatever the [try] block throws is caught. *)
Definition isTokenValid (token : string) (now_ms : Z) : result bool :=
  match isTokenValid_try token now_ms with
  | Return b => Return b
  | Throw _ => Return false
  end.

(** [getAuthToken()]. *)
Definition getAuthToken (st : AsyncStorage) : result (option string) :=
  match getItem AUTH_TOKEN_KEY st with
  | Return v => Return v
  | Throw _ => Return None
  end.

(** [getUserData()]: [userData ? JSON.parse(userData) : null]. *)
Definition getUserData (st : AsyncStorage) : result Js.Value :=
  match getItem USER_DATA_KEY st with
  | Return (Some userData) =>
      if String.eqb userData EmptyString then Return Js.Null
      else match Js.JSON_parse userData with
           | Some v => Return v
           | None => Return Js.Null
           end
  | Return None => Return Js.Null
  | Throw _ => Return Js.Null
  end.

(** The [try] block of [isAuthenticated]. *)
Definition isAuthenticated_try (st : AsyncStorage) (now_ms : Z) : result bool :=
  match getAuthToken st with
  | Throw e => Throw e
  | Return token =>
      match getUserData st with
      | Throw e => Throw e
      | Return userData =>
          if negb (truthy_string token) || negb (Js.truthy userData)
          then Return false
          else match token with
               | Some token => isTokenValid token now_ms
               | None => Return false
               end
      end
  end.

(** [isAuthenticated()]. *)
Definition isAuthenticated (st : AsyncStorage) (now_ms : Z) : result bool :=
  match isAuthenticated_try st now_ms with
  | Return b => Return b
  | Throw _ => Return false
  end.

(** [storeAuthData(userData)]. *)
Definition storeAuthData (userData : Js.Value) (st : AsyncStorage)
    : result unit * AsyncStorage :=
  let failed := Throw (Error "Failed to store authentication data") in
  match Js.get userData "jwt" with
  | Throw _ => (failed, st)
  | Return jwt =>
      match multiSet [(AUTH_TOKEN_KEY, jwt);
                      (USER_DATA_KEY, Js.Str (Js.JSON_stringify userData))] st with
      | (Return _, st') => (Return tt, st')
      | (Throw _, st') => (failed, st')
      end
  end.

(** What [fetch] gives: a rejection, or a response with [ok], [status]
    and its body text. *)
Inductive FetchReply : Type :=
| Rejected (e : JsError)
| Response (ok : bool) (status : nat) (body : string).

Definition status_text (status : nat) : string :=
  NilEmpty.string_of_uint (Nat.to_uint status).

(** [error instanceof Error ? error.message : 'Login failed']. *)
Definition login_message (e : JsError) : string :=
  match e with
  | Error m | TypeError m | SyntaxError m => m
  | NotAnError _ | UndefinedThrown => "Login failed"
  end.

(** The [try] block of [login].  [createFirebaseSession] only logs, and a
    failure of [initializeDriverRoute] is swallowed: neither changes the
    outcome or the store. *)
Definition login_try (reply : FetchReply) (st : AsyncStorage)
    : result Js.Value * AsyncStorage :=
  match reply with
  | Rejected e => (Throw e, st)
  | Response ok status body =>
      if negb ok then
        (Throw (Error ("Login failed: " ++ status_text status ++ " - " ++ body)), st)
      else
        match Js.JSON_parse body with
        | None => (Throw (SyntaxError "JSON Parse error"), st)
        | Some userData =>
            match storeAuthData userData st with
            | (Throw e, st') => (Throw e, st')
            | (Return _, st') => (Return userData, st')
            end
        end
  end.

(** [login(credentials)], given the reply of the server. *)
Definition login (reply : FetchReply) (st : AsyncStorage)
    : result Js.Value * AsyncStorage :=
  match login_try reply st with
  | (Return userData, st') => (Return userData, st')
  | (Throw e, st') => (Throw (Error (login_message e)), st')
  end.

(** [logout()]. *)
Definition logout (st : AsyncStorage) : result unit * AsyncStorage :=
  match multiRemove [AUTH_TOKEN_KEY; USER_DATA_KEY] st with
  | (Return _, st') => (Return tt, st')
  | (Throw _, st') => (Throw (Error "Failed to logout"), st')
  end.

(** [getAuthHeader()]: [token ? { Authorization: `Bearer ${token}` } : {}]. *)
Definition getAuthHeader (st : AsyncStorage) : result Js.Value :=
  match getAuthToken st with
  | Throw e => Throw e
  | Return token =>
      if truthy_string token then
        match token with
        | Some token => Return (Js.Object [("Authorization", Js.Str ("Bearer " ++ token))])
        | None => Return (Js.Object [])
        end
      else Return (Js.Object [])
  end.

(** [s.split(', ')]. *)
Fixpoint split_comma_space (s : list ascii) : list (list ascii) :=
  match s with
  | [] => [[]]
  | c :: rest =>
      match rest with
      | d :: rest' =>
          if Ascii.eqb c ","%char && Ascii.eqb d " "%char
          then [] :: split_comma_space rest'
          else match split_comma_space rest with
               | piece :: pieces => (c :: piece) :: pieces
               | [] => [[c]]
               end
      | [] => [[c]]
      end
  end.

(** White space for [trim], among the characters below 256. *)
Definition is_space (c : ascii) : bool :=
  match nat_of_ascii c with
  | 9%nat | 10%nat | 11%nat | 12%nat | 13%nat | 32%nat | 160%nat => true
  | _ => false
  end.

Fixpoint trim_start (s : list ascii) : list ascii :=
  match s with
  | c :: rest => if is_space c then trim_start rest else s
  | [] => []
  end.

(** [s.trim()]. *)
Definition trim (s : list ascii) : list ascii :=
  rev (trim_start (rev (trim_start s))).

(** [text.split(', ').map(x => x.trim())]. *)
Definition split_and_trim (text : string) : list string :=
  map (fun piece => string_of_list_ascii (trim piece))
      (split_comma_space (list_ascii_of_string text)).

(** The body shared by [getUserCompanies()] and [getUserCompanyIds()] on
    the member [field]; neither has a [try]. *)
Definition list_member (field : string) (st : AsyncStorage) : result (list string) :=
  match getUserData st with
  | Throw e => Throw e
  | Return userData =>
      if negb (Js.truthy userData) then Return []
      else
        match Js.get userData field with
        | Throw e => Throw e
        | Return member =>
            if negb (Js.truthy member) then Return []
            else match member with
                 | Js.Str text => Return (split_and_trim text)
                 | _ => Throw (TypeError "split is not a function")
                 end
        end
  end.

Definition getUserCompanies (st : AsyncStorage) : result (list string) :=
  list_member "companies" st.

Definition getUserCompanyIds (st : AsyncStorage) : result (list string) :=
  list_member "companiesId" st.

(** [join(', ')], the text the server sends for a list of names. *)
Fixpoint join_comma_space (names : list (list ascii)) : list ascii :=
  match names with
  | [] => []
  | [name] => name
  | name :: rest => name ++ ","%char :: " "%char :: join_comma_space rest
  end.

(** A name as the server lists it: no comma, no white space at either
    end. *)
Definition plain_name (name : list ascii) : Prop :=
  Forall (fun c => c <> ","%char) name /\ trim name = name.

End WithPlatform.
End ApiAuth.

(** ** A reader and a printer of JSON text

    An instance of the platform for concrete runs.  The reader covers
    objects, arrays, strings (with the escapes of JSON; a [\u] escape only
    below 256), integers, [true], [false] and [null]; on a text it accepts
    it returns what [JSON.parse] returns (an integer is kept exact, where
    [JSON.parse] rounds it to a double above 2^53).  Fractions and
    exponents are outside it. *)

Module JsonText.
Import Js.

Definition dquote : ascii := "034"%char.
Definition backslash : ascii := "092"%char.

Definition is_ws (c : ascii) : bool :=
  match nat_of_ascii c with
  | 32%nat | 9%nat | 10%nat | 13%nat => true
  | _ => false
  end.

Fixpoint skip_ws (s : list ascii) : list ascii :=
  match s with
  | c :: rest => if is_ws c then skip_ws rest else s
  | [] => []
  end.

Definition hex_value (c : ascii) : option nat :=
  let n := nat_of_ascii c in
  if ((48 <=? n) && (n <=? 57))%nat then Some (n - 48)%nat
  else if ((65 <=? n) && (n <=? 70))%nat then Some (n - 55)%nat
  else if ((97 <=? n) && (n <=? 102))%nat then Some (n - 87)%nat
  else None.

Definition simple_escape (c : ascii) : option ascii :=
  match nat_of_ascii c with
  | 34%nat => Some dquote
  | 92%nat => Some backslash
  | 47%nat => Some "/"%char
  | 98%nat => Some (ascii_of_nat 8)
  | 102%nat => Some (ascii_of_nat 12)
  | 110%nat => Some (ascii_of_nat 10)
  | 114%nat => Some (ascii_of_nat 13)
  | 116%nat => Some (ascii_of_nat 9)
  | _ => None
  end.

(** The next character, when it is [c]. *)
Definition expect (c : ascii) (s : list ascii) : option (list ascii) :=
  match s with
  | x :: rest => if Ascii.eqb x c then Some rest else None
  | [] => None
  end.

(** The four hexadecimal digits of a [\u] escape, below 256. *)
Definition read_unicode (s : list ascii) : option (ascii * list ascii) :=
  match s with
  | a :: b :: h :: l :: rest =>
      if Ascii.eqb a "0"%char && Ascii.eqb b "0"%char then
        match hex_value h, hex_value l with
        | Some h, Some l => Some (ascii_of_nat (16 * h + l), rest)
        | _, _ => None
        end
      else None
  | _ => None
  end.

(** The characters of a string literal after its opening quote. *)
Fixpoint read_string (acc : list ascii) (s : list ascii)
    : option (string * list ascii) :=
  match s with
  | [] => None
  | c :: rest =>
      if Ascii.eqb c dquote then Some (string_of_list_ascii acc, rest)
      else if Ascii.eqb c backslash then
        match rest with
        | e :: rest' =>
            if Ascii.eqb e "u"%char then
              match rest' with
              | a :: b :: h :: l :: rest'' =>
                  match read_unicode (a :: b :: h :: l :: []) with
                  | Some (x, _) => read_string (acc ++ [x]) rest''
                  | None => None
                  end
              | _ => None
              end
            else
              match simple_escape e with
              | Some x => read_string (acc ++ [x]) rest'
              | None => None
              end
        | [] => None
        end
      else if (nat_of_ascii c <? 32)%nat then None
      else read_string (acc ++ [c]) rest
  end.

Fixpoint take_digits (s : list ascii) : list ascii * list ascii :=
  match s with
  | c :: rest =>
      if is_digit c
      then let '(ds, r) := take_digits rest in (c :: ds, r)
      else ([], s)
  | [] => ([], [])
  end.

Definition starts_fraction (s : list ascii) : bool :=
  match s with
  | c :: _ => Ascii.eqb c "."%char || Ascii.eqb c "e"%char || Ascii.eqb c "E"%char
  | [] => false
  end.

Definition leading_zero (ds : list ascii) : bool :=
  match ds with
  | z :: _ :: _ => Ascii.eqb z "0"%char
  | _ => false
  end.

(** An integer literal without sign: no leading zero, no fraction. *)
Definition read_natural (s : list ascii) : option (Z * list ascii) :=
  let '(ds, rest) := take_digits s in
  match ds with
  | [] => None
  | _ :: _ =>
      if leading_zero ds || starts_fraction rest then None
      else match digits_value_from 0 ds with
           | Some z => Some (z, rest)
           | None => None
           end
  end.

Fixpoint strip_prefix (p s : list ascii) : option (list ascii) :=
  match p, s with
  | [], _ => Some s
  | x :: p', y :: s' => if Ascii.eqb x y then strip_prefix p' s' else None
  | _ :: _, [] => None
  end.

Definition read_literal (s : list ascii) : option (Value * list ascii) :=
  match strip_prefix (list_ascii_of_string "true") s with
  | Some r => Some (Boolean true, r)
  | None =>
  match strip_prefix (list_ascii_of_string "false") s with
  | Some r => Some (Boolean false, r)
  | None =>
  match strip_prefix (list_ascii_of_string "null") s with
  | Some r => Some (Null, r)
  | None => None
  end end end.

Fixpoint read_value (fuel : nat) (s : list ascii) {struct fuel}
    : option (Value * list ascii) :=
  match fuel with
  | O => None
  | S fuel' =>
      match skip_ws s with
      | [] => None
      | c :: rest =>
          if Ascii.eqb c "{"%char then
            match expect "}"%char (skip_ws rest) with
            | Some rest' => Some (Object [], rest')
            | None => read_members fuel' [] rest
            end
          else if Ascii.eqb c "["%char then
            match expect "]"%char (skip_ws rest) with
            | Some rest' => Some (Array [], rest')
            | None => read_elements fuel' [] rest
            end
          else if Ascii.eqb c dquote then
            match read_string [] rest with
            | Some (str, rest') => Some (Str str, rest')
            | None => None
            end
          else if Ascii.eqb c "-"%char then
            match read_natural rest with
            | Some (z, rest') => Some (Num (Finite (inject_Z (- z))), rest')
            | None => None
            end
          else if is_digit c then
            match read_natural (c :: rest) with
            | Some (z, rest') => Some (Num (Finite (inject_Z z)), rest')
            | None => None
            end
          else read_literal (c :: rest)
      end
  end
with read_elements (fuel : nat) (acc : list Value) (s : list ascii) {struct fuel}
    : option (Value * list ascii) :=
  match fuel with
  | O => None
  | S fuel' =>
      match read_value fuel' s with
      | Some (v, rest) =>
          match expect ","%char (skip_ws rest) with
          | Some rest' => read_elements fuel' (acc ++ [v]) rest'
          | None =>
              match expect "]"%char (skip_ws rest) with
              | Some rest' => Some (Array (acc ++ [v]), rest')
              | None => None
              end
          end
      | None => None
      end
  end
with read_members (fuel : nat) (acc : list (string * Value)) (s : list ascii)
    {struct fuel} : option (Value * list ascii) :=
  match fuel with
  | O => None
  | S fuel' =>
      match expect dquote (skip_ws s) with
      | Some rest =>
          match read_string [] rest with
          | Some (key, rest1) =>
              match expect ":"%char (skip_ws rest1) with
              | Some rest2 =>
                  match read_value fuel' rest2 with
                  | Some (v, rest3) =>
                      match expect ","%char (skip_ws rest3) with
                      | Some rest4 => read_members fuel' (set_prop key v acc) rest4
                      | None =>
                          match expect "}"%char (skip_ws rest3) with
                          | Some rest4 => Some (Object (set_prop key v acc), rest4)
                          | None => None
                          end
                      end
                  | None => None
                  end
              | None => None
              end
          | None => None
          end
      | None => None
      end
  end.

(** [rest] is what is left of [s] after a non-empty part whose last
    character is not the one of code 255. *)
Definition well_ended (s rest : list ascii) : Prop :=
  exists used c, s = used ++ c :: rest /\ c <> "255"%char.

(** [JSON.parse(text)] on the fragment. *)
Definition parse (text : string) : option Value :=
  let s := list_ascii_of_string text in
  match read_value (S (S (length s))) s with
  | Some (v, rest) =>
      match skip_ws rest with
      | [] => Some v
      | _ :: _ => None
      end
  | None => None
  end.

Definition hex_digit (n : nat) : ascii :=
  if (n <? 10)%nat then ascii_of_nat (48 + n) else ascii_of_nat (87 + n).

Definition print_char (c : ascii) : list ascii :=
  let n := nat_of_ascii c in
  if Ascii.eqb c dquote then [backslash; dquote]
  else if Ascii.eqb c backslash then [backslash; backslash]
  else if (n =? 8)%nat then [backslash; "b"%char]
  else if (n =? 12)%nat then [backslash; "f"%char]
  else if (n =? 10)%nat then [backslash; "n"%char]
  else if (n =? 13)%nat then [backslash; "r"%char]
  else if (n =? 9)%nat then [backslash; "t"%char]
  else if (n <? 32)%nat then
    [backslash; "u"%char; "0"%char; "0"%char; hex_digit (n / 16); hex_digit (n mod 16)]
  else [c].

Definition print_string (s : string) : list ascii :=
  [dquote] ++ flat_map print_char (list_ascii_of_string s) ++ [dquote].

Definition print_number (n : Number) : list ascii :=
  match n with
  | Finite q =>
      if Pos.eqb (Qden q) 1
      then list_ascii_of_string (NilZero.string_of_int (Z.to_int (Qnum q)))
      else list_ascii_of_string "null"
  | _ => list_ascii_of_string "null"
  end.

Fixpoint print (v : Value) : list ascii :=
  match v with
  | Undefined | Null => list_ascii_of_string "null"
  | Boolean true => list_ascii_of_string "true"
  | Boolean false => list_ascii_of_string "false"
  | Num n => print_number n
  | Str s => print_string s
  | Array items =>
      ["["%char]
      ++ (fix go (l : list Value) : list ascii :=
            match l with
            | [] => []
            | [x] => print x
            | x :: rest => print x ++ [","%char] ++ go rest
            end) items
      ++ ["]"%char]
  | Object props =>
      ["{"%char]
      ++ (fix go (l : list (string * Value)) : list ascii :=
            match l with
            | [] => []
            | [(k, x)] => print_string k ++ [":"%char] ++ print x
            | (k, x) :: rest =>
                print_string k ++ [":"%char] ++ print x ++ [","%char] ++ go rest
            end) props
      ++ ["}"%char]
  end.

(** [JSON.stringify(v)] on the fragment. *)
Definition stringify (v : Value) : string := string_of_list_ascii (print v).

(** The platform of the concrete runs.  Strings that are not digit
    strings convert to [NaN], and an array or an object has no numeric
    primitive: neither conversion is exercised below. *)
Definition platform : Platform := {|
  JSON_parse := parse;
  JSON_stringify := stringify;
  StringToNumber_other := fun _ => NaN;
  ToPrimitive_object := fun _ => Return (Str "[object Object]")
|}.

End JsonText.

(** ** The Haversine distance ([services/location.ts] lines 211-228; the
       same text in [locationEmulator.ts] lines 303-320 and 620-639 and in
       [apiAuth.ts] lines 612-630) *)

Module Haversine.

(** The arithmetic the formula is written in: the operators of JavaScript
    on numbers and the functions of [Math].  Nothing is assumed of them
    here. *)
Class Arith (num : Type) : Type := {
  add : num -> num -> num;
  sub : num -> num -> num;
  mul : num -> num -> num;
  div : num -> num -> num;
  literal : Z -> num;
  Math_PI : num;
  Math_sin : num -> num;
  Math_cos : num -> num;
  Math_sqrt : num -> num;
  Math_atan2 : num -> num -> num
}.

Declare Scope js_scope.
Delimit Scope js_scope with js.
Infix "+" := add : js_scope.
Infix "-" := sub : js_scope.
Infix "*" := mul : js_scope.
Infix "/" := div : js_scope.

Section Formula.
Context {num : Type} {A : Arith num}.

(** [Location] of [types/index.ts]. *)
Record Location : Type := {
  latitude : num;
  longitude : num;
  timestamp : num;
  accuracy : option num;
  speed : option num;
  heading : option num;
  altitude : option num
}.

Definition toRad (value : num) : num :=
  ((value * Math_PI) / literal 180)%js.

Definition calculateDistance (point1 point2 : Location) : num :=
  let R := literal 6371 in
  let dLat := toRad (latitude point2 - latitude point1)%js in
  let dLon := toRad (longitude point2 - longitude point1)%js in
  let lat1 := toRad (latitude point1) in
  let lat2 := toRad (latitude point2) in
  let a := (Math_sin (dLat / literal 2) * Math_sin (dLat / literal 2) +
            Math_sin (dLon / literal 2) * Math_sin (dLon / literal 2)
              * Math_cos lat1 * Math_cos lat2)%js in
  let c := (literal 2 * Math_atan2 (Math_sqrt a) (Math_sqrt (literal 1 - a)))%js in
  (R * c)%js.

(** [calculateTotalDistance(waypoints)]: the loop from index 1, adding
    the distance from each waypoint's predecessor. *)
Fixpoint sum_legs (total : num) (prevPoint : Location) (rest : list Location) : num :=
  match rest with
  | [] => total
  | currentPoint :: rest' =>
      sum_legs (total + calculateDistance prevPoint currentPoint)%js currentPoint rest'
  end.

Definition calculateTotalDistance (waypoints : list Location) : num :=
  if (length waypoints <? 2)%nat then literal 0
  else match waypoints with
       | first :: rest => sum_legs (literal 0) first rest
       | [] => literal 0
       end.

(** The facts of IEEE-754 arithmetic and of the [Math] functions that are
    exact, all about zero and one; [finite x] reads: x is a number,
    neither NaN nor infinite. *)
Record ExactAtZero (finite : num -> Prop) : Prop := {
  sub_self : forall x, finite x -> (x - x)%js = literal 0;
  zero_times_pi : (literal 0 * Math_PI)%js = literal 0;
  zero_div_180 : (literal 0 / literal 180)%js = literal 0;
  zero_div_2 : (literal 0 / literal 2)%js = literal 0;
  sin_zero : Math_sin (literal 0) = literal 0;
  zero_times_zero : (literal 0 * literal 0)%js = literal 0;
  zero_times_square : forall x, finite x -> (literal 0 * x * x)%js = literal 0;
  zero_plus_zero : (literal 0 + literal 0)%js = literal 0;
  sqrt_zero : Math_sqrt (literal 0) = literal 0;
  one_minus_zero : (literal 1 - literal 0)%js = literal 1;
  sqrt_one : Math_sqrt (literal 1) = literal 1;
  atan2_zero_one : Math_atan2 (literal 0) (literal 1) = literal 0;
  two_times_zero : (literal 2 * literal 0)%js = literal 0;
  radius_times_zero : (literal 6371 * literal 0)%js = literal 0
}.

End Formula.

(** The real numbers as an arithmetic. *)
Definition Ratan2 (y x : R) : R :=
  if Rlt_dec 0 x then atan (y / x)
  else if Rlt_dec x 0 then
    (if Rlt_dec y 0 then atan (y / x) - PI else atan (y / x) + PI)%R
  else if Rlt_dec 0 y then (PI / 2)%R
  else if Rlt_dec y 0 then (- PI / 2)%R
  else 0%R.

Definition real_arith : Arith R := {|
  add := Rplus;
  sub := Rminus;
  mul := Rmult;
  div := Rdiv;
  literal := IZR;
  Math_PI := PI;
  Math_sin := sin;
  Math_cos := cos;
  Math_sqrt := sqrt;
  Math_atan2 := Ratan2
|}.

End Haversine.

(** ** MockTripService ([src/services/locationEmulator.ts] lines 353-643) *)

Module MockTrip.
Import Haversine.

Inductive Status : Type := pending | active | completed | cancelled.

Section Service.
Context {num : Type} {A : Arith num}.

Local Abbreviation Loc := (@Location num).

(** [Trip]; the times are [Date.now()] readings, integers. *)
Record Trip : Type := {
  id : string;
  driverId : string;
  driverName : string;
  status : Status;
  startLocation : option Loc;
  endLocation : option Loc;
  currentLocation : option Loc;
  destination : option Loc;
  startTime : option Z;
  endTime : option Z;
  duration : option Z;
  distance : option num;
  waypoints : list Loc;
  notes : option string;
  createdAt : Z;
  updatedAt : Z
}.

(** The two maps of the class.  A listener is known by its key; what it
    was called with is kept in [delivered], oldest first. *)
Record Service : Type := {
  trips : gmap string Trip;
  listeners : gset string;
  delivered : list (string * option Trip)
}.

Definition empty : Service :=
  {| trips := ∅; listeners := ∅; delivered := [] |}.

Definition decimal (z : Z) : string := NilZero.string_of_int (Z.to_int z).

Definition set_trip (tripId : string) (trip : Trip) (s : Service) : Service :=
  {| trips := <[tripId := trip]> (trips s);
     listeners := listeners s;
     delivered := delivered s |}.

Definition call_listener (key : string) (trip : option Trip) (s : Service) : Service :=
  {| trips := trips s;
     listeners := listeners s;
     delivered := delivered s ++ [(key, trip)] |}.

Definition is_open (st : Status) : bool :=
  match st with pending | active => true | _ => false end.

(** [notifyListeners(tripId, trip)]. *)
Definition notifyListeners (tripId : string) (trip : Trip) (s : Service) : Service :=
  let s1 := if bool_decide (tripId ∈ listeners s)
            then call_listener tripId (Some trip) s else s in
  let activeKey := ("active_" ++ driverId trip)%string in
  if bool_decide (activeKey ∈ listeners s1) && is_open (status trip)
  then call_listener activeKey (Some trip) s1
  else s1.

(** [createTrip(destination)]; [stamp] is the [Date.now()] of the id and
    [now] the one of the two time fields. *)
Definition createTrip (destination : option Loc) (stamp now : Z)
    (s : Service) : result Trip * Service :=
  let tripId := ("trip_" ++ decimal stamp ++ "_mock")%string in
  let trip := {|
    id := tripId;
    driverId := "mock_driver_id";
    driverName := "Conductor Demo";
    status := pending;
    startLocation := None;
    endLocation := None;
    currentLocation := None;
    destination := destination;
    startTime := None;
    endTime := None;
    duration := None;
    distance := None;
    waypoints := [];
    notes := None;
    createdAt := now;
    updatedAt := now |} in
  (Return trip, set_trip tripId trip s).

(** [startTrip(tripId, startLocation)]; [started] and [now] are the two
    [Date.now()] readings. *)
Definition startTrip (tripId : string) (startLoc : Loc) (started now : Z)
    (s : Service) : result unit * Service :=
  match trips s !! tripId with
  | None => (Throw (Error "Failed to start trip"), s)
  | Some trip =>
      let updates := {|
        id := id trip;
        driverId := driverId trip;
        driverName := driverName trip;
        status := active;
        startLocation := Some startLoc;
        endLocation := endLocation trip;
        currentLocation := Some startLoc;
        destination := destination trip;
        startTime := Some started;
        endTime := endTime trip;
        duration := duration trip;
        distance := distance trip;
        waypoints := waypoints trip;
        notes := notes trip;
        createdAt := createdAt trip;
        updatedAt := now |} in
      (Return tt, notifyListeners tripId updates (set_trip tripId updates s))
  end.

(** [updateTripLocation(tripId, location)]. *)
Definition updateTripLocation (tripId : string) (location : Loc) (now : Z)
    (s : Service) : Service :=
  match trips s !! tripId with
  | None => s
  | Some trip =>
      let updates := {|
        id := id trip;
        driverId := driverId trip;
        driverName := driverName trip;
        status := status trip;
        startLocation := startLocation trip;
        endLocation := endLocation trip;
        currentLocation := Some location;
        destination := destination trip;
        startTime := startTime trip;
        endTime := endTime trip;
        duration := duration trip;
        distance := distance trip;
        waypoints := waypoints trip ++ [location];
        notes := notes trip;
        createdAt := createdAt trip;
        updatedAt := now |} in
      notifyListeners tripId updates (set_trip tripId updates s)
  end.

(** [trip.startTime ? now - trip.startTime : 0]: a start time of 0 is
    falsy. *)
Definition elapsed (start : option Z) (now : Z) : Z :=
  match start with
  | Some t => if (t =? 0)%Z then 0%Z else (now - t)%Z
  | None => 0%Z
  end.

(** [endTrip(tripId, endLocation, notes)]. *)
Definition endTrip (tripId : string) (endLoc : Loc) (note : option string)
    (now : Z) (s : Service) : result Trip * Service :=
  match trips s !! tripId with
  | None => (Throw (Error "Failed to end trip"), s)
  | Some trip =>
      let updates := {|
        id := id trip;
        driverId := driverId trip;
        driverName := driverName trip;
        status := completed;
        startLocation := startLocation trip;
        endLocation := Some endLoc;
        currentLocation := currentLocation trip;
        destination := destination trip;
        startTime := startTime trip;
        endTime := Some now;
        duration := Some (elapsed (startTime trip) now);
        distance := Some (calculateTotalDistance (waypoints trip));
        waypoints := waypoints trip;
        notes := note;
        createdAt := createdAt trip;
        updatedAt := now |} in
      (Return updates, notifyListeners tripId updates (set_trip tripId updates s))
  end.

(** The operations that write the [trips] map. *)
Inductive Op : Type :=
| CreateTrip (destination : option Loc) (stamp now : Z)
| StartTrip (tripId : string) (startLoc : Loc) (started now : Z)
| UpdateTripLocation (tripId : string) (location : Loc) (now : Z)
| EndTrip (tripId : string) (endLoc : Loc) (note : option string) (now : Z).

Definition run (op : Op) (s : Service) : Service :=
  match op with
  | CreateTrip d stamp now => snd (createTrip d stamp now s)
  | StartTrip t l started now => snd (startTrip t l started now s)
  | UpdateTripLocation t l now => updateTripLocation t l now s
  | EndTrip t l n now => snd (endTrip t l n now s)
  end.

(** The trip an operation writes: the one it names, or the one
    [createTrip] makes the id of. *)
Definition target (op : Op) : string :=
  match op with
  | CreateTrip _ stamp _ => ("trip_" ++ decimal stamp ++ "_mock")%string
  | StartTrip t _ _ _ => t
  | UpdateTripLocation t _ _ => t
  | EndTrip t _ _ _ => t
  end.

(** [getTrip(tripId)]: [this.trips.get(tripId) || null]. *)
Definition getTrip (tripId : string) (s : Service) : option Trip :=
  trips s !! tripId.

(** [subscribeToTrip(tripId, callback)]: the callback is registered under
    the trip id and called at once with the trip, or with [null]. *)
Definition subscribeToTrip (tripId : string) (s : Service) : Service :=
  call_listener tripId (trips s !! tripId)
    {| trips := trips s;
       listeners := {[tripId]} ∪ listeners s;
       delivered := delivered s |}.

(** The function [subscribeToTrip] returns: [this.listeners.delete(tripId)]. *)
Definition unsubscribe (tripId : string) (s : Service) : Service :=
  {| trips := trips s;
     listeners := listeners s ∖ {[tripId]};
     delivered := delivered s |}.

(** A run of location callbacks of one trip, each with its
    [Date.now()]. *)
Definition updateMany (tripId : string) (updates : list (Loc * Z)) (s : Service)
    : Service :=
  fold_left (fun s u => updateTripLocation tripId (fst u) (snd u) s) updates s.



End Service.
End MockTrip.

(** ** Retry helpers ([src/utils/errorHandler.ts] lines 101-121 and
       [src/components/RuntimeSafeWrapper.tsx] lines 45-73) *)

Module ErrorHandler.

(** What a run does, in order: the k-th invocation of the operation, or a
    [setTimeout] wait of so many milliseconds. *)
Inductive Event : Type :=
| Call (k : nat)
| Sleep (ms : Z).

Section Retry.
Context {T : Type}.

(** The outcome of the k-th invocation of [operation()]. *)
Variable operation : nat -> result T.

(** The [for] loop of [retryOperation] from index [i], with [remaining]
    turns left. *)
Fixpoint retry_loop (maxRetries : nat) (delayMs : Z) (remaining i : nat)
    (lastError : JsError) (trace : list Event) : result T * list Event :=
  match remaining with
  | O => (Throw lastError, trace)
  | S remaining' =>
      match operation i with
      | Return v => (Return v, trace ++ [Call i])
      | Throw e =>
          let trace' :=
            if (Z.of_nat i <? Z.of_nat maxRetries - 1)%Z
            then trace ++ [Call i; Sleep (delayMs * (Z.of_nat i + 1))%Z]
            else trace ++ [Call i] in
          retry_loop maxRetries delayMs remaining' (S i) e trace'
      end
  end.

(** [retryOperation(operation, maxRetries = 3, delayMs = 1000)]. *)
Definition retryOperation (maxRetries : nat) (delayMs : Z) : result T * list Event :=
  retry_loop maxRetries delayMs maxRetries 0 UndefinedThrown [].

End Retry.

Definition default_maxRetries : nat := 3.
Definition default_delayMs : Z := 1000%Z.

(** The dimension probe of [initializeRuntime]: [valid k] tells whether
    the k-th [Dimensions.get('window')] gives a usable object; after the
    n-th failure the wait is [Math.pow(2, n) * 100]. *)
Fixpoint probe_loop (valid : nat -> bool) (maxRetries remaining retries : nat)
    (trace : list Event) : bool * list Event :=
  match remaining with
  | O => (false, trace)
  | S remaining' =>
      if valid retries then (true, trace ++ [Call retries])
      else
        let retries' := S retries in
        let trace' :=
          if (retries' <? maxRetries)%nat
          then trace ++ [Call retries; Sleep (2 ^ Z.of_nat retries' * 100)%Z]
          else trace ++ [Call retries] in
        probe_loop valid maxRetries remaining' retries' trace'
  end.

Definition probe_dimensions (valid : nat -> bool) : bool * list Event :=
  probe_loop valid 10 10 0 [].

(** The waits of a run, in order. *)
Fixpoint delays (trace : list Event) : list Z :=
  match trace with
  | [] => []
  | Sleep ms :: rest => ms :: delays rest
  | Call _ :: rest => delays rest
  end.

(** The invocations of a run, in order. *)
Fixpoint calls (trace : list Event) : list nat :=
  match trace with
  | [] => []
  | Call k :: rest => k :: calls rest
  | Sleep _ :: rest => calls rest
  end.

(** The time a run spends waiting. *)
Definition total_wait (trace : list Event) : Z :=
  fold_right Z.add 0%Z (delays trace).

(** [safeAsyncCall(asyncFn, fallback, errorHandler)]: [outcome] is what
    [asyncFn()] gives, [fallback] is [undefined] when the argument is
    omitted, and [errorHandler], when one is passed, tells what the handler
    does with the error it is called with. *)
Definition safeAsyncCall (outcome : result Js.Value) (fallback : Js.Value)
    (errorHandler : option (JsError -> result unit)) : result Js.Value :=
  match outcome with
  | Return v => Return v
  | Throw error =>
      let handled :=
        match errorHandler with
        | Some handler => handler error
        | None => Return tt   (* console.error *)
        end in
      match handled with
      | Throw e => Throw e
      | Return _ => Return (if Js.truthy fallback then fallback else Js.Null)
      end
  end.

(** The wait after the failed attempt [i] of [retryOperation]. *)
Definition wait_after (delayMs : Z) (i : nat) : Z := (delayMs * (Z.of_nat i + 1))%Z.

(** No wait is longer than the one before it. *)
Fixpoint never_longer (ds : list Z) : Prop :=
  match ds with
  | d1 :: ((d2 :: _) as rest) => (d2 <= d1)%Z /\ never_longer rest
  | _ => True
  end.

(** Each wait is longer than the one before it. *)
Fixpoint each_longer (ds : list Z) : Prop :=
  match ds with
  | d1 :: ((d2 :: _) as rest) => (d1 < d2)%Z /\ each_longer rest
  | _ => True
  end.

End ErrorHandler.

(** ** Location tracking of LocationEmulatorService
       ([src/services/locationEmulator.ts] lines 16-40 and 176-300) *)

Module Tracking.

(** What the service asks of the platform, in order. *)
Inductive PlatformCall : Type :=
| WatchPosition (id : nat)     (* [Geolocation.watchPosition] answered [id] *)
| ClearWatch (id : nat)
| SetInterval (id : nat)       (* [setInterval] answered [id] *)
| ClearInterval (id : nat)
| AlertShown
| OnError                      (* the caller's [onError] was called *)
| MockLocation.                (* a mock location was handed to the caller *)

(** The private fields of the class. *)
Record Service : Type := {
  watchId : option nat;
  isTracking : bool;
  mockLocationEnabled : bool
}.

Definition World : Type := (Service * list PlatformCall)%type.

Definition initial : Service :=
  {| watchId := None; isTracking := false; mockLocationEnabled := false |}.

(** [startLocationTracking(...)]: [hasPermission] is what
    [requestLocationPermission()] answers and [watch] what
    [Geolocation.watchPosition] does. *)
Definition startLocationTracking (hasPermission : bool) (watch : result nat)
    (w : World) : bool * World :=
  let '(s, log) := w in
  if isTracking s then (false, w)
  else if negb hasPermission then (false, (s, log ++ [AlertShown]))
  else match watch with
       | Return id =>
           (true,
            ({| watchId := Some id; isTracking := true;
                mockLocationEnabled := mockLocationEnabled s |},
             log ++ [WatchPosition id]))
       | Throw _ => (false, w)
       end.

(** [startMockLocationUpdates(onLocationUpdate)]; [interval] is what
    [setInterval] answers. *)
Definition startMockLocationUpdates (interval : nat) (w : World) : World :=
  let '(s, log) := w in
  ({| watchId := Some interval; isTracking := isTracking s;
      mockLocationEnabled := true |},
   log ++ [SetInterval interval]).

(** The error callback handed to [watchPosition]; [android] is
    [Platform.OS === 'android'], to which [isEmulator()] comes down, and
    [has_onError] tells whether the caller passed [onError]. *)
Definition watch_error (android has_onError : bool) (interval : nat) (w : World)
    : World :=
  if android && negb (mockLocationEnabled (fst w))
  then startMockLocationUpdates interval w
  else if has_onError then (fst w, snd w ++ [OnError])
  else w.

(** [updateMockLocation], the body of the interval. *)
Definition updateMockLocation (w : World) : World :=
  if negb (isTracking (fst w)) || negb (mockLocationEnabled (fst w)) then w
  else (fst w, snd w ++ [MockLocation]).

(** [stopLocationTracking()]. *)
Definition stopLocationTracking (w : World) : World :=
  let '(s, log) := w in
  match watchId s with
  | Some id =>
      if mockLocationEnabled s
      then (initial, log ++ [ClearInterval id])
      else ({| watchId := None; isTracking := false;
               mockLocationEnabled := mockLocationEnabled s |},
            log ++ [ClearWatch id])
  | None => w
  end.

Definition isLocationTracking (w : World) : bool := isTracking (fst w).

(** What can happen to the service. *)
Inductive Event : Type :=
| Start (hasPermission : bool) (watch : result nat)
| WatchError (android has_onError : bool) (interval : nat)
| Tick
| Stop.

Definition step (w : World) (e : Event) : World :=
  match e with
  | Start p watch => snd (startLocationTracking p watch w)
  | WatchError a h i => watch_error a h i w
  | Tick => updateMockLocation w
  | Stop => stopLocationTracking w
  end.

Definition run (events : list Event) : World :=
  fold_left step events (initial, []).

End Tracking.

(** ** The location callback of the active-trip screen
       ([src/unnamed/part_006] lines 184-219) *)

Module ActiveTrip.
Section Screen.
Context {num : Type}.
Variable firestore_update : nat -> result unit.
Variable firestore_add : nat -> bool.

(** Whether [new Date(t).toISOString()] returns: it throws a
    [RangeError] for a time value that is no date. *)
Variable valid_date : num -> bool.

Local Abbreviation Loc := (@Haversine.Location num).
Local Abbreviation Coord := (@TripLocation.Coordinate num).

(** The state the callback writes: the path drawn on the map, the trip
    location service with Firestore, and the locations POSTed to
    [/api/trip-locations/{tripId}/coordinates] by
    [tripApiService.sendLocation], which catches its own errors; the log
    keeps the location each call was made for (the call carries its
    timestamp as an ISO string). *)
Record World : Type := {
  routePath : list Loc;
  currentLocation : option Loc;
  tracking : @TripLocation.World num;
  posted : list (string * Coord)
}.

(** The object literal passed to [updateCurrentLocation]. *)
Definition coordinate_of (location : Loc) : Coord := {|
  TripLocation.latitude := Haversine.latitude location;
  TripLocation.longitude := Haversine.longitude location;
  TripLocation.timestamp := Haversine.timestamp location;
  TripLocation.accuracy := Haversine.accuracy location;
  TripLocation.speed := None;
  TripLocation.heading := None
|}.

(** [handleLocationUpdate(location)] for the trip [tripId] of the
    screen. *)
Definition handleLocationUpdate (tripId : string) (w : World) (location : Loc)
    : World :=
  let path := routePath w ++ [location] in
  if negb (truthy_string (Some tripId)) then
    {| routePath := path; currentLocation := Some location;
       tracking := tracking w; posted := posted w |}
  else
    match TripLocation.updateCurrentLocation firestore_update firestore_add
            tripId (coordinate_of location) (tracking w) with
    | (Return _, tw) =>
        {| routePath := path; currentLocation := Some location;
           tracking := tw;
           posted :=
             if valid_date (Haversine.timestamp location)
             then posted w ++ [(tripId, coordinate_of location)]
             else posted w |}
    | (Throw _, tw) =>
        (* catch: the location stays queued in the service *)
        {| routePath := path; currentLocation := Some location;
           tracking := tw; posted := posted w |}
    end.

End Screen.
End ActiveTrip.

(** ** Concrete data for the runs below *)

Module Samples.

Definition c1 : @TripLocation.Coordinate Q := {|
  TripLocation.latitude := (194326 # 10000)%Q;
  TripLocation.longitude := (- 991332 # 10000)%Q;
  TripLocation.timestamp := inject_Z 1700000000000;
  TripLocation.accuracy := Some (inject_Z 5);
  TripLocation.speed := None;
  TripLocation.heading := None
|}.

Definition c2 : @TripLocation.Coordinate Q := {|
  TripLocation.latitude := (194330 # 10000)%Q;
  TripLocation.longitude := (- 991340 # 10000)%Q;
  TripLocation.timestamp := inject_Z 1700000005000;
  TripLocation.accuracy := Some (inject_Z 5);
  TripLocation.speed := None;
  TripLocation.heading := None
|}.

Definition no_writes : @TripLocation.Firestore Q :=
  {| TripLocation.update_calls := []; TripLocation.history_docs := [] |}.

(** The network is down for the first [n] writes and up afterwards. *)
Definition offline_for (n : nat) (k : nat) : result unit :=
  if (k <? n)%nat then Throw (Error "firestore/unavailable") else Return tt.

Definition always_offline (k : nat) : result unit :=
  Throw (Error "firestore/unavailable").

Definition history_up (k : nat) : bool := true.

(** Base64url without padding (RFC 4648, section 5), as a JWT issuer
    writes the pieces of a token. *)
Definition url_alphabet : string :=
  "ABCDEFGHIJKLMNOPQRSTUVWXYZabcdefghijklmnopqrstuvwxyz0123456789-_".

Definition sextet (n : N) : ascii :=
  match String.get (N.to_nat n) url_alphabet with
  | Some c => c
  | None => "A"%char
  end.

Fixpoint base64url (bytes : list ascii) : list ascii :=
  match bytes with
  | [] => []
  | [a] =>
      let n := (N_of_ascii a * 16)%N in
      [sextet (n / 64); sextet (n mod 64)]
  | [a; b] =>
      let n := ((N_of_ascii a * 256 + N_of_ascii b) * 4)%N in
      [sextet (n / 4096); sextet ((n / 64) mod 64); sextet (n mod 64)]
  | a :: b :: c :: rest =>
      let n := (N_of_ascii a * 65536 + N_of_ascii b * 256 + N_of_ascii c)%N in
      [sextet (n / 262144); sextet ((n / 4096) mod 64);
       sextet ((n / 64) mod 64); sextet (n mod 64)] ++ base64url rest
  end.

(** A token with the given payload, a fixed header and signature. *)
Definition jwt_of (payload : Js.Value) : string :=
  ("eyJhbGciOiJIUzI1NiIsInR5cCI6IkpXVCJ9."
   ++ string_of_list_ascii (base64url (JsonText.print payload))
   ++ ".c2ln")%string.

(** The first instant of 2100, in seconds. *)
Definition year_2100 : Z := 4102444800.

(** 14 November 2023, in milliseconds. *)
Definition today_ms : Z := 1700000000000.

(** An object with [sub] 42 (a string) and [exp] 4102444800: as JSON text
    29 bytes, 39 characters once encoded. *)
Definition live_payload : Js.Value :=
  Js.Object [("sub"%string, Js.Str "42");
             ("exp"%string, Js.Num (Js.Finite (inject_Z year_2100)))].

Definition live_token : string :=
  "eyJhbGciOiJIUzI1NiIsInR5cCI6IkpXVCJ9.eyJzdWIiOiI0MiIsImV4cCI6NDEwMjQ0NDgwMH0.c2ln".

(** An object with [exp] 4102444800 alone: 18 bytes, 24 characters once
    encoded. *)
Definition aligned_payload : Js.Value :=
  Js.Object [("exp"%string, Js.Num (Js.Finite (inject_Z year_2100)))].

Definition aligned_token : string :=
  "eyJhbGciOiJIUzI1NiIsInR5cCI6IkpXVCJ9.eyJleHAiOjQxMDI0NDQ4MDB9.c2ln".

(** An object with [exp] 1: expired since 1970. *)
Definition expired_payload : Js.Value :=
  Js.Object [("exp"%string, Js.Num (Js.Finite (inject_Z 1)))].

Definition expired_token : string :=
  "eyJhbGciOiJIUzI1NiIsInR5cCI6IkpXVCJ9.eyJleHAiOjF9.c2ln".

(** An object with [sub] 4 and [exp] 4102444800, both strings: 30 bytes,
    40 characters once encoded. *)
Definition string_exp_payload : Js.Value :=
  Js.Object [("sub"%string, Js.Str "4"); ("exp"%string, Js.Str "4102444800")].

Definition string_exp_token : string :=
  "eyJhbGciOiJIUzI1NiIsInR5cCI6IkpXVCJ9.eyJzdWIiOiI0IiwiZXhwIjoiNDEwMjQ0NDgwMCJ9.c2ln".

(** A token whose payload piece holds four exclamation marks, outside the
    Base64 alphabet: they stand where a string value would be encoded, in
    an object with a member [a] and a member [exp] 4102444800. *)
Definition invalid_base64_token : string :=
  "eyJhbGciOiJIUzI1NiIsInR5cCI6IkpXVCJ9.eyJhIjoi!!!!IiwiZXhwIjo0MTAyNDQ0ODAwICB9.c2ln".

(** The body of a login response for a user holding [jwt]. *)
Definition user_of (jwt : string) : Js.Value :=
  Js.Object [("companies"%string, Js.Str "Acme");
             ("role"%string, Js.Str "DRIVER");
             ("jwt"%string, Js.Str jwt);
             ("name"%string, Js.Str "Ana");
             ("id"%string, Js.Str "42");
             ("companiesId"%string, Js.Str "1")].

Definition login_ok (jwt : string) : ApiAuth.FetchReply :=
  ApiAuth.Response true 200 (JsonText.stringify (user_of jwt)).

Definition empty_storage : ApiAuth.AsyncStorage :=
  {| ApiAuth.items := ∅; ApiAuth.available := true |}.

(** A store that holds [token] and the data of its user. *)
Definition storage_with (token : string) : ApiAuth.AsyncStorage :=
  {| ApiAuth.items :=
       <[ApiAuth.USER_DATA_KEY := JsonText.stringify (user_of token)]>
         (<[ApiAuth.AUTH_TOKEN_KEY := token]> ∅);
     ApiAuth.available := true |}.

(** Mexico City, Zocalo. *)
Definition zocalo : @Haversine.Location R := {|
  Haversine.latitude := (194326 / 10000)%R;
  Haversine.longitude := (- 991332 / 10000)%R;
  Haversine.timestamp := 1700000000000%R;
  Haversine.accuracy := None;
  Haversine.speed := None;
  Haversine.heading := None;
  Haversine.altitude := None
|}.

(** Mexico City, Alameda Central. *)
Definition alameda : @Haversine.Location R := {|
  Haversine.latitude := (194360 / 10000)%R;
  Haversine.longitude := (- 991440 / 10000)%R;
  Haversine.timestamp := 1700000005000%R;
  Haversine.accuracy := None;
  Haversine.speed := None;
  Haversine.heading := None;
  Haversine.altitude := None
|}.

(** The id [createTrip] gives at [today_ms]. *)
Definition first_trip : string := "trip_1700000000000_mock".

(** An operation that fails twice and then answers 7. *)
Definition third_time_lucky (k : nat) : result nat :=
  if (k <? 2)%nat then Throw (Error "busy") else Return 7%nat.

(** An operation that fails at every invocation. *)
Definition always_fails (k : nat) : result unit := Throw (Error "boom").

End Samples.

(** * Properties *)

Unset Implicit Arguments.

(** ** The pending-update queue *)

Module TripLocationFacts.
Import TripLocation.

Section Queue.
Context {num : Type}.
Variable firestore_update : nat -> result unit.
Variable firestore_add : nat -> bool.

Local Abbreviation Coord := (@Coordinate num).
Local Abbreviation Svc := (@Service num).
Local Abbreviation Store := (@Firestore num).
Local Abbreviation update := (updateCurrentLocation firestore_update firestore_add).
Local Abbreviation retry := (retryPendingUpdates firestore_update firestore_add).
Local Abbreviation iteration := (retry_iteration firestore_update firestore_add).

Local Abbreviation requeued := (requeued firestore_update).
Local Abbreviation requeued_from := (requeued_from firestore_update).
Local Abbreviation attempts_from := (attempts_from firestore_update).

Lemma update_failed tripId (c : Coord) s db e :
  firestore_update (length (update_calls db)) = Throw e ->
  update tripId c (s, db)
  = (Throw e, (push_pending c s, log_update tripId c false db)).
Proof. intros H. unfold updateCurrentLocation. now rewrite H. Qed.

Lemma update_succeeded tripId (c : Coord) s db :
  is_return (firestore_update (length (update_calls db))) = true ->
  exists db',
    update tripId c (s, db) = (Return tt, (s, db'))
    /\ update_calls db' = update_calls db ++ [(tripId, c, true)].
Proof.
  intros H. unfold updateCurrentLocation.
  destruct (firestore_update _) as [[]|e]; [|discriminate].
  eexists; split; [reflexivity|].
  unfold addToHistory. now destruct (firestore_add _).
Qed.

(** One turn of the retry loop, with a trip id set. *)
Lemma iteration_spec tripId (c : Coord) s db :
  currentTripId s = Some tripId ->
  let k := length (update_calls db) in
  let w' := iteration (s, db) c in
  currentTripId (fst w') = Some tripId
  /\ pendingUpdates (fst w') = pendingUpdates s ++ requeued k c
  /\ update_calls (snd w')
     = update_calls db ++ [(tripId, c, is_return (firestore_update k))].
Proof.
  intros Hid. cbn zeta. unfold retry_iteration, requeued. cbn [fst snd].
  rewrite Hid. unfold updateCurrentLocation.
  destruct (firestore_update (length (update_calls db))) as [[]|e]; cbn.
  - rewrite app_nil_r. repeat split; auto.
    unfold addToHistory. now destruct (firestore_add _).
  - rewrite <- app_assoc. repeat split; auto.
Qed.

(** The whole loop. *)
Lemma loop_spec tripId (updates : list Coord) : forall s db,
  currentTripId s = Some tripId ->
  let k := length (update_calls db) in
  let w' := fold_left iteration updates (s, db) in
  currentTripId (fst w') = Some tripId
  /\ pendingUpdates (fst w') = pendingUpdates s ++ requeued_from k updates
  /\ update_calls (snd w') = update_calls db ++ attempts_from k tripId updates.
Proof.
  induction updates as [|c rest IH]; intros s db Hid; cbn zeta.
  - cbn. now rewrite !app_nil_r.
  - cbn [fold_left requeued_from attempts_from].
    destruct (iteration_spec tripId c s db Hid) as (Hid' & Hq & Hlog).
    destruct (iteration (s, db) c) as [s1 db1] eqn:E. cbn [fst snd] in *.
    destruct (IH s1 db1 Hid') as (H1 & H2 & H3).
    rewrite H1, H2, H3, Hq, Hlog.
    rewrite length_app, Nat.add_1_r, <- !app_assoc. cbn. auto.
Qed.

Lemma requeued_from_all_ok k (updates : list Coord) :
  (forall j, k <= j -> is_return (firestore_update j) = true) ->
  requeued_from k updates = [].
Proof.
  revert k. induction updates as [|c rest IH]; intros k H; cbn; [easy|].
  unfold requeued. rewrite H by lia. cbn. apply IH. intros j Hj. apply H. lia.
Qed.

Lemma attempts_from_all_ok k tripId (updates : list Coord) :
  (forall j, k <= j -> is_return (firestore_update j) = true) ->
  attempts_from k tripId updates = map (fun c => (tripId, c, true)) updates.
Proof.
  revert k. induction updates as [|c rest IH]; intros k H; cbn; [easy|].
  rewrite H by lia. f_equal. apply IH. intros j Hj. apply H. lia.
Qed.

Lemma requeued_from_all_failed k (updates : list Coord) :
  (forall j, k <= j -> is_return (firestore_update j) = false) ->
  requeued_from k updates = flat_map (fun c => [c; c]) updates.
Proof.
  revert k. induction updates as [|c rest IH]; intros k H; cbn; [easy|].
  unfold requeued. rewrite H by lia. cbn. do 2 f_equal. apply IH.
  intros j Hj. apply H. lia.
Qed.

(** A run of failing location callbacks queues their coordinates in call
    order. *)
Lemma updateAll_failed (calls : list (string * Coord)) : forall s db,
  (forall j, length (update_calls db) <= j < length (update_calls db) + length calls ->
             is_return (firestore_update j) = false) ->
  let w' := updateAll firestore_update firestore_add calls (s, db) in
  currentTripId (fst w') = currentTripId s
  /\ pendingUpdates (fst w') = pendingUpdates s ++ map snd calls
  /\ length (update_calls (snd w')) = length (update_calls db) + length calls.
Proof.
  induction calls as [|[t c] rest IH]; intros s db H; cbn zeta.
  - cbn. rewrite app_nil_r. auto with arith.
  - unfold updateAll. cbn [fold_left fst snd].
    assert (Hk : is_return (firestore_update (length (update_calls db))) = false)
      by (apply H; cbn; lia).
    destruct (firestore_update (length (update_calls db))) as [[]|e] eqn:E;
      [discriminate|].
    rewrite (update_failed t c s db e E). cbn [snd].
    destruct (IH (push_pending c s) (log_update t c false db)) as (H1 & H2 & H3).
    { intros j Hj. apply H. cbn in *. rewrite length_app in Hj. cbn in Hj. lia. }
    unfold updateAll in *. rewrite H1, H2, H3. cbn.
    rewrite length_app, <- app_assoc. cbn. repeat split; auto. lia.
Qed.

(** A retry during which every write fails leaves each coordinate in the
    queue twice. *)
Lemma retry_all_failed tripId (s : Svc) db :
  currentTripId s = Some tripId -> tripId <> EmptyString ->
  (forall j, length (update_calls db) <= j -> is_return (firestore_update j) = false) ->
  pendingUpdates (fst (retry (s, db)))
  = flat_map (fun c => [c; c]) (pendingUpdates s).
Proof.
  intros Hid Hne Hoff. unfold retryPendingUpdates.
  rewrite Hid. cbn [truthy_string].
  destruct (String.eqb_spec tripId EmptyString) as [->|_]; [congruence|].
  destruct (pendingUpdates s) as [|c rest] eqn:Hq; [cbn; exact Hq|].
  cbn [length Nat.eqb orb negb].
  destruct (loop_spec tripId (c :: rest) (clear_pending s) db Hid) as (_ & H & _).
  cbn zeta in H. rewrite H. cbn [clear_pending pendingUpdates app].
  now apply requeued_from_all_failed.
Qed.

(** C10. When the pending-updates array is empty or no current trip id is
    set ([null], or the empty string, which is falsy too),
    [retryPendingUpdates] returns at once: the service (queue and trip id)
    and Firestore (no write attempted) are as they were, and so is the
    pending count. *)
Theorem retry_guard_returns_unchanged (s : Svc) (db : Store) :
  pendingUpdates s = [] \/ truthy_string (currentTripId s) = false ->
  retry (s, db) = (s, db)
  /\ getPendingUpdatesCount (fst (retry (s, db))) = getPendingUpdatesCount s
  /\ getCurrentTripId (fst (retry (s, db))) = getCurrentTripId s
  /\ update_calls (snd (retry (s, db))) = update_calls db.
Proof.
  intros H.
  assert (E : retry (s, db) = (s, db)).
  { unfold retryPendingUpdates. destruct H as [-> | ->]; cbn.
    - reflexivity.
    - now rewrite orb_true_r. }
  rewrite E. auto.
Qed.

(** C1 (amended). With a current trip id set: after N consecutive failed
    location updates on an empty queue, the queue holds their N
    coordinates in call order; once every write succeeds, a single
    [retryPendingUpdates] submits exactly these N coordinates, in that
    order, to the current trip, and leaves the queue empty. *)
Theorem retry_drains_in_insertion_order
    (calls : list (string * Coord)) (s : Svc) (db : Store) (tripId : string) :
  pendingUpdates s = [] ->
  currentTripId s = Some tripId -> tripId <> EmptyString ->
  (forall j, length (update_calls db) <= j < length (update_calls db) + length calls ->
             is_return (firestore_update j) = false) ->
  (forall j, length (update_calls db) + length calls <= j ->
             is_return (firestore_update j) = true) ->
  let w1 := updateAll firestore_update firestore_add calls (s, db) in
  let w2 := retry w1 in
  pendingUpdates (fst w1) = map snd calls
  /\ pendingUpdates (fst w2) = []
  /\ update_calls (snd w2)
     = update_calls (snd w1) ++ map (fun c => (tripId, c, true)) (map snd calls).
Proof.
  intros Hq Hid Hne Hoff Hon. cbn zeta.
  destruct (updateAll_failed calls s db Hoff) as (H1 & H2 & H3).
  cbn zeta in *.
  destruct (updateAll firestore_update firestore_add calls (s, db)) as [s1 db1].
  cbn [fst snd] in *. rewrite Hq in H2. cbn in H2. rewrite Hid in H1.
  split; [assumption|].
  unfold retryPendingUpdates. rewrite H1. cbn [truthy_string].
  destruct (String.eqb_spec tripId EmptyString) as [->|_]; [congruence|].
  cbn [negb]. rewrite orb_false_r.
  destruct (Nat.eqb_spec (length (pendingUpdates s1)) 0) as [E|_].
  - apply length_zero_iff_nil in E. rewrite E in *. rewrite <- H2.
    cbn. now rewrite app_nil_r.
  - destruct (loop_spec tripId (pendingUpdates s1) (clear_pending s1) db1 H1)
      as (_ & Hp & Hlog).
    cbn zeta in *. rewrite Hp, Hlog. cbn [clear_pending pendingUpdates app].
    rewrite requeued_from_all_ok by (intros j Hj; apply Hon; lia).
    rewrite attempts_from_all_ok by (intros j Hj; apply Hon; lia).
    now rewrite H2.
Qed.

End Queue.

Import Samples.

(** C10, on a queue of one coordinate without a trip id. *)
Lemma retry_guard_returns_unchanged_witness :
  let s := {| pendingUpdates := [c1]; currentTripId := None |} in
  retryPendingUpdates always_offline history_up (s, no_writes) = (s, no_writes).
Proof.
  intros s.
  exact (proj1 (retry_guard_returns_unchanged always_offline history_up
                  s no_writes (or_intror eq_refl))).
Defined.

(** C1 as the claim states it fails: no trip id was ever set (say,
    [initializeTripLocation] failed while offline); two updates fail and
    are queued; the network comes back; [retryPendingUpdates] submits
    nothing and the queue keeps both coordinates. *)
Lemma retry_without_trip_id_drains_nothing :
  let net := offline_for 2 in
  let s0 := snd (initializeTripLocation false "trip-1" initial) in
  let w1 := updateAll net history_up [("trip-1"%string, c1); ("trip-1"%string, c2)]
              (s0, no_writes) in
  let w2 := retryPendingUpdates net history_up w1 in
  pendingUpdates (fst w1) = [c1; c2]
  /\ (forall j, 2 <= j -> is_return (net j) = true)
  /\ pendingUpdates (fst w2) = [c1; c2]
  /\ pendingUpdates (fst w2) <> []
  /\ update_calls (snd w2) = update_calls (snd w1).
Proof.
  cbn zeta. repeat split; try reflexivity; try discriminate.
  intros j Hj. unfold offline_for.
  destruct (Nat.ltb_spec j 2); [lia | reflexivity].
Qed.

(** C1 (amended), on two failed updates of trip-1. *)
Lemma retry_drains_in_insertion_order_witness :
  let net := offline_for 2 in
  let s0 := setCurrentTripId "trip-1" initial in
  let w1 := updateAll net history_up [("trip-1"%string, c1); ("trip-1"%string, c2)]
              (s0, no_writes) in
  let w2 := retryPendingUpdates net history_up w1 in
  pendingUpdates (fst w1) = [c1; c2]
  /\ pendingUpdates (fst w2) = []
  /\ update_calls (snd w2)
     = update_calls (snd w1) ++ [("trip-1"%string, c1, true); ("trip-1"%string, c2, true)].
Proof.
  apply (retry_drains_in_insertion_order (offline_for 2) history_up
           [("trip-1"%string, c1); ("trip-1"%string, c2)]
           (setCurrentTripId "trip-1" initial) no_writes "trip-1"%string).
  - reflexivity.
  - reflexivity.
  - discriminate.
  - intros j Hj. cbn in Hj. unfold offline_for.
    destruct (Nat.ltb_spec j 2); [reflexivity | lia].
  - intros j Hj. cbn in Hj. unfold offline_for.
    destruct (Nat.ltb_spec j 2); [lia | reflexivity].
Defined.

(** C2, at the failing input: trip-1 is current, one coordinate is
    queued and the network is still down.  The retry fails once, and the
    coordinate is queued twice. *)
Lemma failed_retry_requeues_twice :
  let s := {| pendingUpdates := [c1]; currentTripId := Some "trip-1"%string |} in
  let w := retryPendingUpdates always_offline history_up (s, no_writes) in
  update_calls (snd w) = [("trip-1"%string, c1, false)]
  /\ pendingUpdates (fst w) = [c1; c1].
Proof. cbn zeta. split; reflexivity. Qed.

End TripLocationFacts.

(** ** The reader rejects a text that ends with the character of code 255 *)

Module JsonTextFacts.
Import Js JsonText.

Lemma skip_ws_split s : exists ws, s = ws ++ skip_ws s.
Proof.
  induction s as [|c s [ws IH]]; [now exists []|]. cbn.
  destruct (is_ws c); [|now exists []].
  exists (c :: ws). cbn. now f_equal.
Qed.

Lemma skip_ws_nil s : skip_ws s = [] -> Forall (fun c => is_ws c = true) s.
Proof.
  induction s as [|c s IH]; [constructor|]. cbn.
  destruct (is_ws c) eqn:E; [|discriminate]. intros H. constructor; auto.
Qed.

Lemma well_ended_prefix pre s rest : well_ended s rest -> well_ended (pre ++ s) rest.
Proof.
  intros (used & c & -> & Hc). exists (pre ++ used), c. now rewrite <- app_assoc.
Qed.

Lemma well_ended_cons x s rest : well_ended s rest -> well_ended (x :: s) rest.
Proof. apply (well_ended_prefix [x]). Qed.

Lemma well_ended_skip_ws s rest : well_ended (skip_ws s) rest -> well_ended s rest.
Proof.
  destruct (skip_ws_split s) as [ws E]. intros H. rewrite E. now apply well_ended_prefix.
Qed.

(** An expected character, itself not 255, ends what came before it. *)
Lemma expect_well_ended c s rest :
  c <> "255"%char -> expect c (skip_ws s) = Some rest -> well_ended s rest.
Proof.
  intros Hc H. apply well_ended_skip_ws. unfold expect in H.
  destruct (skip_ws s) as [|x r]; [discriminate|].
  destruct (Ascii.eqb_spec x c) as [->|_]; [|discriminate].
  injection H as ->. now exists [], c.
Qed.

Lemma well_ended_trans s mid rest :
  (exists used, s = used ++ mid) -> well_ended mid rest -> well_ended s rest.
Proof. intros [used ->]. apply well_ended_prefix. Qed.

Lemma well_ended_suffix s rest : well_ended s rest -> exists used, s = used ++ rest.
Proof.
  intros (used & c & -> & _). exists (used ++ [c]). now rewrite <- app_assoc.
Qed.

Lemma read_string_end : forall n s,
  length s <= n ->
  forall acc str rest,
    read_string acc s = Some (str, rest) -> well_ended s rest.
Proof.
  induction n as [|n IH]; intros s Hn acc str rest H.
  - destruct s; [discriminate | cbn in Hn; lia].
  - destruct s as [|c r]; [discriminate|]. cbn [read_string] in H.
    destruct (Ascii.eqb_spec c dquote) as [->|_].
    + injection H as _ <-. now exists [], dquote.
    + destruct (Ascii.eqb c backslash).
      * destruct r as [|e r']; [discriminate|].
        destruct (Ascii.eqb e "u"%char).
        -- destruct r' as [|a [|b [|h [|l r'']]]]; try discriminate.
           destruct (read_unicode [a; b; h; l]) as [[x ?]|]; [|discriminate].
           apply IH in H; [|cbn in *; lia].
           now apply (well_ended_prefix [c; e; a; b; h; l]).
        -- destruct (simple_escape e); [|discriminate].
           apply IH in H; [|cbn in *; lia].
           now apply (well_ended_prefix [c; e]).
      * destruct (nat_of_ascii c <? 32)%nat; [discriminate|].
        apply IH in H; [|cbn in *; lia].
        now apply well_ended_cons.
Qed.

Lemma take_digits_spec : forall s ds rest,
  take_digits s = (ds, rest) ->
  s = ds ++ rest /\ Forall (fun c => is_digit c = true) ds.
Proof.
  induction s as [|c s IH]; intros ds rest H; cbn in H.
  - injection H as <- <-. split; [reflexivity | constructor].
  - destruct (is_digit c) eqn:E.
    + destruct (take_digits s) as [ds' r']. injection H as <- <-.
      destruct (IH ds' r' eq_refl) as [-> HF]. split; [reflexivity | now constructor].
    + injection H as <- <-. split; [reflexivity | constructor].
Qed.

Lemma digit_not_255 c : is_digit c = true -> c <> "255"%char.
Proof. intros H ->. discriminate H. Qed.

Lemma read_natural_end s z rest :
  read_natural s = Some (z, rest) -> well_ended s rest.
Proof.
  unfold read_natural. destruct (take_digits s) as [ds r] eqn:E.
  destruct (take_digits_spec s ds r E) as [-> HF].
  destruct ds as [|d ds]; [discriminate|].
  destruct (leading_zero (d :: ds) || starts_fraction r); [discriminate|].
  destruct (digits_value_from 0 (d :: ds)); [|discriminate].
  intros [= _ <-].
  destruct (exists_last (l := d :: ds) ltac:(discriminate)) as (front & c & Hds).
  rewrite Hds in *. apply Forall_app in HF as [_ HF]. inversion HF; subst.
  exists front, c. split; [now rewrite <- app_assoc | now apply digit_not_255].
Qed.

Lemma strip_prefix_spec : forall p s r, strip_prefix p s = Some r -> s = p ++ r.
Proof.
  induction p as [|x p IH]; intros s r H; cbn in H.
  - now injection H as ->.
  - destruct s as [|y s]; [discriminate|].
    destruct (Ascii.eqb_spec x y) as [->|_]; [|discriminate].
    cbn. f_equal. now apply IH.
Qed.

Lemma read_literal_end s v rest :
  read_literal s = Some (v, rest) -> well_ended s rest.
Proof.
  unfold read_literal.
  destruct (strip_prefix (list_ascii_of_string "true") s) as [r|] eqn:E1.
  { intros [= _ <-]. apply strip_prefix_spec in E1 as ->.
    exists (list_ascii_of_string "tru"), "e"%char. split; [reflexivity | discriminate]. }
  destruct (strip_prefix (list_ascii_of_string "false") s) as [r|] eqn:E2.
  { intros [= _ <-]. apply strip_prefix_spec in E2 as ->.
    exists (list_ascii_of_string "fals"), "e"%char. split; [reflexivity | discriminate]. }
  destruct (strip_prefix (list_ascii_of_string "null") s) as [r|] eqn:E3; [|discriminate].
  intros [= _ <-]. apply strip_prefix_spec in E3 as ->.
  exists (list_ascii_of_string "nul"), "l"%char. split; [reflexivity | discriminate].
Qed.

Ltac ended_by c :=
  match goal with
  | H : expect c (skip_ws ?s) = Some ?rest |- _ =>
      apply (expect_well_ended c s rest ltac:(discriminate)) in H
  end.

(** What the three readers consume is not empty and does not end with the
    character of code 255. *)
Lemma readers_end : forall fuel,
  (forall s v rest, read_value fuel s = Some (v, rest) -> well_ended s rest)
  /\ (forall acc s v rest, read_elements fuel acc s = Some (v, rest) -> well_ended s rest)
  /\ (forall acc s v rest, read_members fuel acc s = Some (v, rest) -> well_ended s rest).
Proof.
  induction fuel as [|fuel (IHv & IHe & IHm)].
  - repeat split; intros; discriminate.
  - repeat split.
    + intros s v rest H. cbn [read_value] in H. apply well_ended_skip_ws.
      destruct (skip_ws s) as [|c r]; [discriminate|].
      destruct (Ascii.eqb c "{"%char).
      { destruct (expect "}"%char (skip_ws r)) as [r'|] eqn:E.
        - injection H as _ <-. ended_by "}"%char. now apply well_ended_cons.
        - apply IHm in H. now apply well_ended_cons. }
      destruct (Ascii.eqb c "["%char).
      { destruct (expect "]"%char (skip_ws r)) as [r'|] eqn:E.
        - injection H as _ <-. ended_by "]"%char. now apply well_ended_cons.
        - apply IHe in H. now apply well_ended_cons. }
      destruct (Ascii.eqb c dquote).
      { destruct (read_string [] r) as [[str r']|] eqn:E; [|discriminate].
        injection H as _ <-. apply well_ended_cons.
        now apply (read_string_end (length r) r (le_n _) [] str). }
      destruct (Ascii.eqb c "-"%char).
      { destruct (read_natural r) as [[z r']|] eqn:E; [|discriminate].
        injection H as _ <-. apply well_ended_cons. now apply read_natural_end with z. }
      destruct (is_digit c).
      { destruct (read_natural (c :: r)) as [[z r']|] eqn:E; [|discriminate].
        injection H as _ <-. now apply read_natural_end with z. }
      now apply read_literal_end with v.
    + intros acc s v rest H. cbn [read_elements] in H.
      destruct (read_value fuel s) as [[x r]|] eqn:E; [|discriminate].
      apply IHv, well_ended_suffix in E.
      destruct (expect ","%char (skip_ws r)) as [r'|] eqn:E1.
      { ended_by ","%char. apply IHe in H.
        apply well_ended_trans with r; [assumption|].
        apply well_ended_trans with r'; [now apply well_ended_suffix | assumption]. }
      destruct (expect "]"%char (skip_ws r)) as [r'|] eqn:E2; [|discriminate].
      injection H as _ <-. ended_by "]"%char.
      now apply well_ended_trans with r.
    + intros acc s v rest H. cbn [read_members] in H.
      destruct (expect dquote (skip_ws s)) as [r|] eqn:E0; [|discriminate].
      ended_by dquote. apply well_ended_suffix in E0.
      destruct (read_string [] r) as [[key r1]|] eqn:E1; [|discriminate].
      apply (read_string_end (length r) r (le_n _)), well_ended_suffix in E1.
      destruct (expect ":"%char (skip_ws r1)) as [r2|] eqn:E2; [|discriminate].
      ended_by ":"%char. apply well_ended_suffix in E2.
      destruct (read_value fuel r2) as [[x r3]|] eqn:E3; [|discriminate].
      apply IHv, well_ended_suffix in E3.
      assert (Hs : exists used, s = used ++ r3).
      { destruct E0 as [u0 ->], E1 as [u1 ->], E2 as [u2 ->], E3 as [u3 ->].
        exists (u0 ++ u1 ++ u2 ++ u3). now rewrite <- !app_assoc. }
      destruct (expect ","%char (skip_ws r3)) as [r4|] eqn:E4.
      { ended_by ","%char. apply IHm in H.
        apply well_ended_trans with r3; [assumption|].
        apply well_ended_trans with r4; [now apply well_ended_suffix | assumption]. }
      destruct (expect "}"%char (skip_ws r3)) as [r4|] eqn:E5; [|discriminate].
      injection H as _ <-. ended_by "}"%char.
      now apply well_ended_trans with r3.
Qed.

(** The reader has the property [base64Decode] trips on. *)
Lemma platform_rejects_trailing_255 :
  ApiAuth.rejects_trailing_255 (P := platform).
Proof.
  intros pre. cbn. unfold parse.
  rewrite list_ascii_of_string_of_list_ascii.
  destruct (read_value _ _) as [[v rest]|] eqn:E; [|reflexivity].
  destruct (skip_ws rest) as [|x r] eqn:Ews; [|reflexivity].
  exfalso. apply readers_end in E. destruct E as (used & c & E & Hc).
  apply skip_ws_nil in Ews.
  destruct rest as [|y rest' _] using rev_ind.
  - apply app_inj_tail in E as [_ E]. congruence.
  - rewrite app_comm_cons, app_assoc in E. apply app_inj_tail in E as [_ E].
    apply Forall_app in Ews as [_ Ews]. inversion Ews; subst. discriminate.
Qed.

End JsonTextFacts.

(** ** Padding in [base64Decode] *)

Module Base64Facts.
Import ApiAuth.

Lemma list_ind4 {T : Type} (Q : list T -> Prop) :
  Q [] -> (forall a, Q [a]) -> (forall a b, Q [a; b]) -> (forall a b c, Q [a; b; c]) ->
  (forall a b c d rest, Q rest -> Q (a :: b :: c :: d :: rest)) ->
  forall l, Q l.
Proof.
  intros H0 H1 H2 H3 H4. fix IH 1.
  intros [|a [|b [|c [|d rest]]]];
    [apply H0 | apply H1 | apply H2 | apply H3 | apply H4, IH].
Qed.

(** The sign of padding is not in the alphabet. *)
Lemma index_at_pad : index_at (Some "="%char) = (-1)%Z.
Proof. reflexivity. Qed.

(** No character has index 64, the value the loop tests for. *)
Lemma index_at_not_64 (c : option ascii) : index_at c <> 64%Z.
Proof.
  destruct c as [[[] [] [] [] [] [] [] []]|]; vm_compute; discriminate.
Qed.

(** A group that ends with a padding sign decodes to three characters of
    code 255. *)
Lemma decode_group_padded a b c :
  c <> 64%Z ->
  decode_group a b c (-1) = ["255"%char; "255"%char; "255"%char].
Proof.
  intros Hc. unfold decode_group. rewrite Z.lor_m1_r.
  destruct (Z.eqb_spec c 64) as [->|_]; [congruence|]. reflexivity.
Qed.

Lemma pad_group turns a b c d rest :
  pad turns (a :: b :: c :: d :: rest) = a :: b :: c :: d :: pad turns rest.
Proof.
  revert rest. induction turns as [|turns IH]; intros rest; cbn [pad]; [reflexivity|].
  replace (length (a :: b :: c :: d :: rest) mod 4) with (length rest mod 4).
  - destruct (length rest mod 4 =? 0); [reflexivity|]. apply (IH (rest ++ ["="%char])).
  - cbn [length].
    replace (S (S (S (S (length rest))))) with (length rest + 1 * 4) by lia.
    symmetry. apply Nat.Div0.mod_add.
Qed.

(** A text whose length is no multiple of 4 decodes to a text that ends
    with the character of code 255. *)
Lemma decode_unpadded : forall str,
  length str mod 4 <> 0 ->
  exists pre, decode_loop (pad 3 str) = pre ++ ["255"%char].
Proof.
  induction str as [| a | a b | a b c | a b c d rest IH] using list_ind4; intros Hlen.
  - now cbn in Hlen.
  - exists ["255"%char; "255"%char]. cbn [pad length app Nat.modulo Nat.divmod snd Nat.eqb Nat.sub].
    cbn [decode_loop]. rewrite index_at_pad, app_nil_r.
    now rewrite decode_group_padded by (rewrite <- index_at_pad; apply index_at_not_64).
  - exists ["255"%char; "255"%char]. cbn [pad length app Nat.modulo Nat.divmod snd Nat.eqb Nat.sub].
    cbn [decode_loop]. rewrite index_at_pad, app_nil_r.
    now rewrite decode_group_padded by (rewrite <- index_at_pad; apply index_at_not_64).
  - exists ["255"%char; "255"%char]. cbn [pad length app Nat.modulo Nat.divmod snd Nat.eqb Nat.sub].
    cbn [decode_loop]. rewrite index_at_pad, app_nil_r.
    now rewrite decode_group_padded by apply index_at_not_64.
  - rewrite pad_group. cbn [decode_loop].
    destruct IH as [pre Hpre].
    + intros H. apply Hlen. cbn [length].
      replace (S (S (S (S (length rest))))) with (length rest + 1 * 4) by lia.
      now rewrite Nat.Div0.mod_add.
    + rewrite Hpre. eexists. now rewrite app_assoc.
Qed.

Section Rejected.
Context {P : Js.Platform}.

(** Every token whose payload piece has a length that is no multiple of 4
    is rejected, whatever its payload says. *)
Lemma unpadded_payload_is_rejected (token : string) (piece : list ascii) (now_ms : Z) :
  rejects_trailing_255 ->
  nth_error (split "."%char (list_ascii_of_string token)) 1 = Some piece ->
  length piece mod 4 <> 0 ->
  isTokenValid token now_ms = Return false.
Proof.
  intros Hrej Hpiece Hlen.
  unfold isTokenValid, isTokenValid_try. rewrite Hpiece.
  unfold base64Decode. rewrite list_ascii_of_string_of_list_ascii.
  destruct (decode_unpadded
              (replace_all "_"%char "/"%char (replace_all "-"%char "+"%char piece)))
    as [pre Hpre].
  { unfold replace_all. now rewrite !length_map. }
  rewrite Hpre, Hrej. reflexivity.
Qed.

End Rejected.
End Base64Facts.

(** ** The token check and the session *)

Module ApiAuthFacts.
Import ApiAuth.

Section Session.
Context {P : Js.Platform}.

Lemma isTokenValid_try_unfold token now_ms :
  isTokenValid_try token now_ms
  = match payload_text token with
    | None => Throw (TypeError "Cannot read property replace of undefined")
    | Some text =>
        match Js.JSON_parse text with
        | None => Throw (SyntaxError "JSON Parse error")
        | Some payload =>
            match Js.get payload "exp" with
            | Throw e => Throw e
            | Return exp => Js.gt exp (currentTime now_ms)
            end
        end
    end.
Proof.
  unfold isTokenValid_try, payload_text.
  now destruct (nth_error _ 1).
Qed.

Lemma isTokenValid_total token now_ms :
  exists b, isTokenValid token now_ms = Return b.
Proof.
  unfold isTokenValid. destruct (isTokenValid_try token now_ms); eauto.
Qed.

Lemma getUserData_total st : exists v, getUserData st = Return v.
Proof.
  unfold getUserData.
  destruct (getItem USER_DATA_KEY st) as [[userData|]|e]; eauto.
  destruct (String.eqb userData EmptyString); eauto.
  destruct (Js.JSON_parse userData); eauto.
Qed.

Lemma isAuthenticated_total st now_ms :
  exists b, isAuthenticated st now_ms = Return b.
Proof.
  unfold isAuthenticated. destruct (isAuthenticated_try st now_ms); eauto.
Qed.

(** [isAuthenticated] answers [true] only through [isTokenValid]. *)
Lemma isAuthenticated_true_inv st now_ms :
  isAuthenticated st now_ms = Return true ->
  exists token,
    getItem AUTH_TOKEN_KEY st = Return (Some token)
    /\ isTokenValid token now_ms = Return true.
Proof.
  unfold isAuthenticated, isAuthenticated_try, getAuthToken.
  destruct (getItem AUTH_TOKEN_KEY st) as [[token|]|e].
  - destruct (getUserData_total st) as [v ->].
    destruct (negb (truthy_string (Some token)) || negb (Js.truthy v)).
    + discriminate.
    + destruct (isTokenValid token now_ms) as [b|e] eqn:E; [|discriminate].
      intros [= ->]. eauto.
  - destruct (getUserData_total st) as [v ->]. cbn. discriminate.
  - destruct (getUserData_total st) as [v ->]. cbn. discriminate.
Qed.

Lemma isAuthenticated_invalid_token st now_ms token :
  getItem AUTH_TOKEN_KEY st = Return (Some token) ->
  isTokenValid token now_ms = Return false ->
  isAuthenticated st now_ms = Return false.
Proof.
  intros Hget Hbad.
  destruct (isAuthenticated_total st now_ms) as [[|] E]; [|assumption].
  destruct (isAuthenticated_true_inv st now_ms E) as (token' & Hget' & Hok).
  congruence.
Qed.

(** A token whose payload, as the check decodes and parses it, has a
    numeric [exp] not after the current time in seconds is not valid, and
    [isAuthenticated()] answers [false] for a store that holds it. *)
Lemma past_exp_is_rejected
    (token text : string) (payload : Js.Value) (exp : Js.Number) (now_ms : Z)
    (st : AsyncStorage) :
  payload_text token = Some text ->
  Js.JSON_parse text = Some payload ->
  Js.get payload "exp" = Return (Js.Num exp) ->
  Js.not_after exp (currentTime now_ms) ->
  isTokenValid token now_ms = Return false
  /\ (getItem AUTH_TOKEN_KEY st = Return (Some token) ->
      isAuthenticated st now_ms = Return false).
Proof.
  intros Htext Hparse Hexp Hpast.
  assert (Hbad : isTokenValid token now_ms = Return false).
  { unfold isTokenValid. rewrite isTokenValid_try_unfold, Htext, Hparse, Hexp.
    cbn. destruct exp as [| | |q]; cbn in *; try easy.
    apply Qle_bool_iff in Hpast. now rewrite Hpast. }
  split; [assumption|].
  intros Hget. now apply isAuthenticated_invalid_token with token.
Qed.

Lemma malformed_token_is_rejected token now_ms :
  malformed token -> isTokenValid token now_ms = Return false.
Proof.
  unfold isTokenValid. rewrite isTokenValid_try_unfold.
  intros [H | [(text & H & Hp) | [(text & H & Hp) | (text & payload & H & Hp & Hexp)]]];
    rewrite H; try rewrite Hp; try rewrite Hexp; reflexivity.
Qed.

(** C9 (amended). The validity check and [isAuthenticated()] return a
    boolean for every token and every store, and raise nothing; the answer
    is [false] for a token without a dot, with a payload text that is not
    JSON, with a [null] payload or with a payload that has no [exp]. *)
Theorem token_check_never_throws (token : string) (now_ms : Z) (st : AsyncStorage) :
  (exists b, isTokenValid token now_ms = Return b)
  /\ (exists b, isAuthenticated st now_ms = Return b)
  /\ (malformed token ->
      isTokenValid token now_ms = Return false
      /\ (getItem AUTH_TOKEN_KEY st = Return (Some token) ->
          isAuthenticated st now_ms = Return false)).
Proof.
  split; [apply isTokenValid_total|].
  split; [apply isAuthenticated_total|].
  intros Hbad. pose proof (malformed_token_is_rejected token now_ms Hbad) as H.
  split; [assumption|].
  intros Hget. now apply isAuthenticated_invalid_token with token.
Qed.

End Session.

Import Samples.

(** C9 as the claim states it fails, twice.  A payload whose [exp] is the
    string of a number, not a number, is accepted: the comparison converts
    it.  And a payload piece with characters outside the Base64 alphabet
    is accepted when the characters they decode to fall inside a JSON
    string. *)
Lemma non_numeric_expiry_is_accepted :
  string_exp_token = jwt_of string_exp_payload
  /\ payload_text string_exp_token = Some (JsonText.stringify string_exp_payload)
  /\ Js.get string_exp_payload "exp" = Return (Js.Str "4102444800")
  /\ isTokenValid (P := JsonText.platform) string_exp_token today_ms = Return true
  /\ isAuthenticated (P := JsonText.platform) (storage_with string_exp_token) today_ms
     = Return true
  /\ isTokenValid (P := JsonText.platform) invalid_base64_token today_ms = Return true.
Proof. repeat split; vm_compute; reflexivity. Qed.

(** C9 (amended), on a token without a dot. *)
Lemma token_check_never_throws_witness :
  isTokenValid (P := JsonText.platform) "abc" today_ms = Return false.
Proof.
  exact (proj1 (proj2 (proj2 (token_check_never_throws (P := JsonText.platform)
                                "abc" today_ms empty_storage))
                  (or_introl eq_refl))).
Defined.

(** C5, at the failing input: the server answers a login with a user
    whose token expires in 2100; its payload takes 29 bytes, so the
    payload piece has 39 characters.  The login succeeds, returns the user
    with its [id], [name] and [jwt], and stores the token and the user
    data; the token's expiry is in the future; [isAuthenticated()] answers
    [false]. *)
Lemma fresh_login_is_not_authenticated :
  let outcome := login (P := JsonText.platform) (login_ok live_token) empty_storage in
  live_token = jwt_of live_payload
  /\ fst outcome = Return (user_of live_token)
  /\ Js.get (user_of live_token) "id" = Return (Js.Str "42")
  /\ Js.get (user_of live_token) "name" = Return (Js.Str "Ana")
  /\ Js.get (user_of live_token) "jwt" = Return (Js.Str live_token)
  /\ items (snd outcome) !! AUTH_TOKEN_KEY = Some live_token
  /\ items (snd outcome) !! USER_DATA_KEY = Some (JsonText.stringify (user_of live_token))
  /\ (currentTime today_ms < year_2100)%Z
  /\ isAuthenticated (P := JsonText.platform) (snd outcome) today_ms = Return false.
Proof. cbn zeta. repeat split; vm_compute; reflexivity. Qed.

(** The same login with a token whose payload takes 18 bytes (24
    characters, no padding needed) is authenticated. *)
Lemma aligned_login_is_authenticated :
  let outcome := login (P := JsonText.platform) (login_ok aligned_token) empty_storage in
  aligned_token = jwt_of aligned_payload
  /\ fst outcome = Return (user_of aligned_token)
  /\ isAuthenticated (P := JsonText.platform) (snd outcome) today_ms = Return true.
Proof. cbn zeta. repeat split; vm_compute; reflexivity. Qed.

End ApiAuthFacts.

(** ** The trip lifecycle *)

Module MockTripFacts.
Import Haversine MockTrip.

Section Lifecycle.
Context {num : Type} {A : Arith num}.

Local Abbreviation Svc := (@Service num).
Local Abbreviation Loc := (@Location num).

Lemma trips_notifyListeners tripId trip (s : Svc) :
  trips (notifyListeners tripId trip s) = trips s.
Proof.
  unfold notifyListeners.
  destruct (bool_decide (tripId ∈ listeners s));
    match goal with |- context [if ?b then _ else _] => destruct b end;
    reflexivity.
Qed.



End Lifecycle.

Import Samples.

#[local] Existing Instance real_arith.

Local Abbreviation run_real := (@run R real_arith).



End MockTripFacts.

(** ** Retrying with a growing wait *)

Module ErrorHandlerFacts.
Import ErrorHandler.

Lemma delays_app tr1 tr2 : delays (tr1 ++ tr2) = delays tr1 ++ delays tr2.
Proof.
  induction tr1 as [|[k|ms] tr1 IH]; cbn; [reflexivity | assumption | now f_equal].
Qed.

Section Retry.
Context {T : Type}.
Variable operation : nat -> result T.

Lemma each_longer_waits delayMs : forall m i,
  (0 < delayMs)%Z -> each_longer (map (wait_after delayMs) (seq i m)).
Proof.
  induction m as [|m IH]; intros i Hpos; cbn; [exact I|].
  destruct m as [|m']; cbn; [exact I|].
  split; [unfold wait_after; nia | apply (IH (S i) Hpos)].
Qed.

(** The run of the loop from attempt [i]: it makes [m] attempts, each
    but the last one failed and followed by its wait. *)
Lemma retry_loop_trace maxRetries delayMs : forall remaining i lastError trace,
  remaining + i = maxRetries ->
  let r := retry_loop operation maxRetries delayMs remaining i lastError trace in
  exists m,
    m <= remaining
    /\ snd r
       = trace
         ++ flat_map (fun k => [Call k; Sleep (wait_after delayMs k)]) (seq i (m - 1))
         ++ (if (m =? 0)%nat then [] else [Call (i + m - 1)])
    /\ (forall k, i <= k < i + m - 1 -> is_return (operation k) = false)
    /\ ((exists v, 0 < m /\ operation (i + m - 1) = Return v /\ fst r = Return v)
        \/ (m = remaining
            /\ (forall k, i <= k < i + m -> is_return (operation k) = false)
            /\ exists e, fst r = Throw e
                         /\ (m = 0 -> e = lastError)
                         /\ (0 < m -> operation (i + m - 1) = Throw e))).
Proof.
  induction remaining as [|remaining IH]; intros i lastError trace Hsum; cbn zeta;
    cbn [retry_loop].
  - exists 0. cbn. rewrite app_nil_r. split; [lia|]. split; [reflexivity|].
    split; [intros k Hk; lia|]. right. split; [reflexivity|].
    split; [intros k Hk; lia|]. exists lastError.
    split; [reflexivity|]. split; [reflexivity | lia].
  - destruct (operation i) as [v|e] eqn:E.
    + exists 1. cbn [fst snd Nat.sub seq flat_map Nat.eqb app].
      replace (i + 1 - 1) with i by lia.
      split; [lia|]. split; [reflexivity|]. split; [intros k Hk; lia|].
      left. exists v. split; [lia|]. split; [assumption | reflexivity].
    + destruct (Z.ltb_spec (Z.of_nat i) (Z.of_nat maxRetries - 1)) as [Hlt|Hge].
      * destruct (IH (S i) e (trace ++ [Call i; Sleep (delayMs * (Z.of_nat i + 1))])
                    ltac:(lia)) as (m & Hm & Htrace & Hfail & Hout).
        cbn zeta in *.
        assert (Hpos : 0 < m).
        { destruct Hout as [(v & H & _) | (H & _)]; lia. }
        exists (S m). split; [lia|]. split; [|split].
        -- rewrite Htrace. destruct m as [|m']; [lia|].
           cbn [Nat.eqb Nat.sub]. rewrite Nat.sub_0_r.
           cbn [seq flat_map]. rewrite <- !app_assoc. cbn [app].
           replace (S i + S m' - 1) with (i + S (S m') - 1) by lia. reflexivity.
        -- intros k Hk. destruct (Nat.eq_dec k i) as [->|Hne].
           ++ now rewrite E.
           ++ apply Hfail. lia.
        -- replace (i + S m - 1) with (S i + m - 1) by lia.
           destruct Hout as [(v & _ & Hv & Hr) | (Hrem & Hall & e' & Hr & _ & Hlast)].
           ++ left. exists v. split; [lia|]. split; assumption.
           ++ right. split; [lia|]. split.
              ** intros k Hk. destruct (Nat.eq_dec k i) as [->|Hne].
                 --- now rewrite E.
                 --- apply Hall. lia.
              ** exists e'. split; [assumption|]. split; [lia|]. intros _. now apply Hlast.
      * assert (remaining = 0) by lia. subst remaining. cbn [retry_loop].
        exists 1. cbn [fst snd Nat.sub seq flat_map Nat.eqb app].
        replace (i + 1 - 1) with i by lia.
        split; [lia|]. split; [reflexivity|]. split; [intros k Hk; lia|].
        right. split; [reflexivity|]. split.
        -- intros k Hk. replace k with i by lia. now rewrite E.
        -- exists e. split; [reflexivity|]. split; [lia|]. intros _. exact E.
Qed.

Lemma calls_of_attempts delayMs : forall m i tail,
  calls (flat_map (fun k => [Call k; Sleep (wait_after delayMs k)]) (seq i m) ++ tail)
  = seq i m ++ calls tail.
Proof.
  induction m as [|m IH]; intros i tail; [reflexivity|].
  cbn [seq flat_map app calls]. now rewrite IH.
Qed.

Lemma delays_of_attempts delayMs : forall m i tail,
  delays (flat_map (fun k => [Call k; Sleep (wait_after delayMs k)]) (seq i m) ++ tail)
  = map (wait_after delayMs) (seq i m) ++ delays tail.
Proof.
  induction m as [|m IH]; intros i tail; [reflexivity|].
  cbn [seq flat_map app delays map]. now rewrite IH.
Qed.

(** C3 (amended). [retryOperation] re-attempts a failed operation, up to
    [maxRetries] times in all: it invokes the operation [n] times, one
    after the other, each attempt but the last having failed, and waits
    [delayMs * (i + 1)] milliseconds after the failed attempt [i] when
    another attempt follows.  The waits are [delayMs], [2 * delayMs], ...,
    each longer than the one before it for a positive [delayMs].  It
    answers the value of the first attempt that succeeds; when all
    [maxRetries] attempts fail it throws the error of the last one. *)
Theorem retryOperation_waits_grow (maxRetries : nat) (delayMs : Z) :
  let r := retryOperation operation maxRetries delayMs in
  exists n,
    n <= maxRetries
    /\ snd r
       = flat_map (fun k => [Call k; Sleep (wait_after delayMs k)]) (seq 0 (n - 1))
         ++ (if (n =? 0)%nat then [] else [Call (n - 1)])
    /\ calls (snd r) = seq 0 n
    /\ delays (snd r) = map (wait_after delayMs) (seq 0 (n - 1))
    /\ ((0 < delayMs)%Z -> each_longer (delays (snd r)))
    /\ (forall k, k < n - 1 -> is_return (operation k) = false)
    /\ ((exists v, 0 < n /\ operation (n - 1) = Return v /\ fst r = Return v)
        \/ (n = maxRetries
            /\ (forall k, k < maxRetries -> is_return (operation k) = false)
            /\ exists e, fst r = Throw e
                         /\ (maxRetries = 0 -> e = UndefinedThrown)
                         /\ (0 < maxRetries -> operation (maxRetries - 1) = Throw e))).
Proof.
  cbn zeta. unfold retryOperation.
  destruct (retry_loop_trace maxRetries delayMs maxRetries 0 UndefinedThrown []
              ltac:(lia)) as (n & Hn & Htrace & Hfail & Hout).
  cbn zeta in *. cbn [app Nat.add] in Htrace.
  assert (Hdelays : delays (snd (retry_loop operation maxRetries delayMs maxRetries 0
                                   UndefinedThrown []))
                    = map (wait_after delayMs) (seq 0 (n - 1))).
  { rewrite Htrace, delays_of_attempts. destruct (n =? 0)%nat; cbn; now rewrite app_nil_r. }
  exists n. split; [assumption|]. split; [exact Htrace|]. split; [|split; [|split; [|split]]].
  - rewrite Htrace, calls_of_attempts. destruct n as [|n']; [reflexivity|].
    cbn [Nat.eqb Nat.sub calls]. rewrite Nat.sub_0_r.
    change (seq 0 (S n')) with (seq 0 (S n')). rewrite (seq_S n' 0). reflexivity.
  - exact Hdelays.
  - intros Hpos. rewrite Hdelays. now apply each_longer_waits.
  - intros k Hk. apply Hfail. lia.
  - destruct Hout as [(v & Hpos & Hv & Hr) | (-> & Hall & e & Hr & H0 & Hlast)].
    + left. exists v. auto.
    + right. split; [reflexivity|]. split.
      * intros k Hk. apply Hall. lia.
      * exists e. auto.
Qed.

End Retry.

Import Samples.

(** C3 as the claim states it fails: with its default arguments
    [retryOperation] calls a failing operation three times and waits 1000
    ms, then 2000 ms, between the attempts. *)
Lemma retryOperation_waits_longer_each_time :
  retryOperation always_fails default_maxRetries default_delayMs
  = (Throw (Error "boom"),
     [Call 0; Sleep 1000; Call 1; Sleep 2000; Call 2])
  /\ ~ never_longer
        (delays (snd (retryOperation always_fails default_maxRetries default_delayMs))).
Proof.
  split; [reflexivity|]. vm_compute. intros [H _]. apply H. reflexivity.
Qed.

(** C3 (amended), on the default arguments and an operation that always
    fails. *)
Lemma retryOperation_waits_grow_witness :
  let r := retryOperation always_fails default_maxRetries default_delayMs in
  snd r = [Call 0; Sleep 1000; Call 1; Sleep 2000; Call 2]
  /\ fst r = Throw (Error "boom")
  /\ each_longer (delays (snd r)).
Proof.
  intros r.
  destruct (retryOperation_waits_grow always_fails default_maxRetries default_delayMs)
    as (n & _ & Htrace & _ & _ & Hlonger & _ & Hout).
  destruct Hout as [(v & _ & Hv & _) | (-> & _ & e & He & _ & Hlast)];
    [discriminate Hv|].
  split; [exact Htrace|]. split.
  - specialize (Hlast ltac:(unfold default_maxRetries; lia)).
    injection Hlast as <-. exact He.
  - apply Hlonger. reflexivity.
Defined.

(** The dimension probe of the runtime wrapper waits twice as long after
    each failure. *)
Lemma probe_dimensions_waits_double :
  delays (snd (probe_dimensions (fun _ => false)))
  = [200; 400; 800; 1600; 3200; 6400; 12800; 25600; 51200]%Z.
Proof. reflexivity. Qed.

End ErrorHandlerFacts.

(** ** The distance of a point to itself *)

Module HaversineFacts.
Import Haversine.

Section Zero.
Context {num : Type} {A : Arith num}.
Variable finite : num -> Prop.

(** C7. The distance of a point to itself is 0: for a point whose
    coordinates are finite numbers, as is the cosine of its latitude,
    under the exact facts about zero and one collected in [ExactAtZero]. *)
Theorem distance_to_itself_is_zero (point : @Location num) :
  ExactAtZero finite ->
  finite (latitude point) ->
  finite (longitude point) ->
  finite (Math_cos (toRad (latitude point))) ->
  calculateDistance point point = literal 0.
Proof.
  intros L Hlat Hlon Hcos. unfold calculateDistance.
  rewrite (sub_self L _ Hlat), (sub_self L _ Hlon).
  assert (Hrad : toRad (literal 0) = literal 0).
  { unfold toRad. now rewrite (zero_times_pi L), (zero_div_180 L). }
  rewrite Hrad, (zero_div_2 L), (sin_zero L), (zero_times_zero L).
  rewrite (zero_times_square L _ Hcos), (zero_plus_zero L).
  rewrite (sqrt_zero L), (one_minus_zero L), (sqrt_one L), (atan2_zero_one L).
  now rewrite (two_times_zero L), (radius_times_zero L).
Qed.

End Zero.

Lemma real_exact_at_zero : ExactAtZero (A := real_arith) (fun _ => True).
Proof.
  constructor; cbn; intros; try lra.
  - apply sin_0.
  - apply sqrt_0.
  - apply sqrt_1.
  - unfold Ratan2. destruct (Rlt_dec 0 1) as [_|H]; [|lra].
    replace (0 / 1)%R with 0%R by lra. apply atan_0.
Qed.

(** C7, in the reals, on the Zocalo. *)
Lemma distance_to_itself_is_zero_witness :
  calculateDistance (A := real_arith) Samples.zocalo Samples.zocalo = 0%R.
Proof.
  exact (distance_to_itself_is_zero (A := real_arith) (fun _ => True)
           Samples.zocalo real_exact_at_zero I I I).
Defined.

(** In the reals the formula is symmetric.  (In doubles the two sides
    multiply the cosines in opposite orders, and each product rounds.) *)
Lemma distance_symmetric_in_the_reals (p q : @Location R) :
  calculateDistance (A := real_arith) p q = calculateDistance (A := real_arith) q p.
Proof.
  unfold calculateDistance, toRad. cbn.
  set (x := (latitude p)). set (y := latitude q).
  set (u := longitude p). set (v := longitude q).
  replace ((x - y) * PI / 180 / 2)%R with (- ((y - x) * PI / 180 / 2))%R by lra.
  replace ((u - v) * PI / 180 / 2)%R with (- ((v - u) * PI / 180 / 2))%R by lra.
  rewrite !sin_neg.
  set (s1 := sin ((y - x) * PI / 180 / 2)). set (s2 := sin ((v - u) * PI / 180 / 2)).
  replace (- s1 * - s1 + - s2 * - s2 * cos (y * PI / 180) * cos (x * PI / 180))%R
    with (s1 * s1 + s2 * s2 * cos (x * PI / 180) * cos (y * PI / 180))%R by ring.
  reflexivity.
Qed.

End HaversineFacts.

(** ** More on the pending-update queue *)

Module TripLocationQueueFacts.
Import TripLocation TripLocationFacts.

Section Queue.
Context {num : Type}.
Variable firestore_update : nat -> result unit.
Variable firestore_add : nat -> bool.

Local Abbreviation Coord := (@Coordinate num).
Local Abbreviation Svc := (@Service num).
Local Abbreviation Store := (@Firestore num).
Local Abbreviation update := (updateCurrentLocation firestore_update firestore_add).
Local Abbreviation retry := (retryPendingUpdates firestore_update firestore_add).

Lemma attempts_from_shape k tripId (updates : list Coord) :
  map (fun a : string * Coord * bool => snd (fst a)) (attempts_from firestore_update k tripId updates) = updates
  /\ Forall (fun a : string * Coord * bool => fst (fst a) = tripId) (attempts_from firestore_update k tripId updates).
Proof.
  revert k. induction updates as [|c rest IH]; intros k; cbn.
  { split; [easy | constructor]. }
  destruct (IH (S k)) as [H1 H2]. split; [now f_equal | now constructor].
Qed.

Lemma requeued_from_attempts k tripId (updates : list Coord) :
  requeued_from firestore_update k updates
  = flat_map (fun a : string * Coord * bool => if snd a then [] else [snd (fst a); snd (fst a)])
      (attempts_from firestore_update k tripId updates).
Proof.
  revert k. induction updates as [|c rest IH]; intros k; cbn; [reflexivity|].
  rewrite IH. unfold requeued. now destruct (is_return (firestore_update k)).
Qed.

Lemma retry_attempts (tripId : string) (s : Svc) (db : Store) :
  currentTripId s = Some tripId -> tripId <> EmptyString ->
  exists attempts,
    update_calls (snd (retry (s, db))) = update_calls db ++ attempts
    /\ map (fun a : string * Coord * bool => snd (fst a)) attempts = pendingUpdates s
    /\ Forall (fun a : string * Coord * bool => fst (fst a) = tripId) attempts
    /\ pendingUpdates (fst (retry (s, db)))
       = flat_map (fun a : string * Coord * bool => if snd a then [] else [snd (fst a); snd (fst a)]) attempts
    /\ currentTripId (fst (retry (s, db))) = Some tripId.
Proof.
  intros Hid Hne.
  exists (attempts_from firestore_update (length (update_calls db)) tripId (pendingUpdates s)).
  destruct (attempts_from_shape (length (update_calls db)) tripId (pendingUpdates s))
    as [Hmap Hall].
  unfold retryPendingUpdates. rewrite Hid. cbn [truthy_string].
  destruct (String.eqb_spec tripId EmptyString) as [->|_]; [congruence|].
  cbn [negb]. rewrite orb_false_r.
  destruct (pendingUpdates s) as [|c rest] eqn:Hq.
  - cbn. rewrite app_nil_r, Hq. repeat split; auto.
  - cbn [length Nat.eqb].
    destruct (loop_spec firestore_update firestore_add tripId (c :: rest)
                (clear_pending s) db Hid) as (H1 & H2 & H3).
    cbn zeta in *. rewrite H1, H2, H3. cbn [clear_pending pendingUpdates app].
    repeat split; auto.
    apply requeued_from_attempts.
Qed.

Lemma length_requeued (attempts : list (string * Coord * bool)) :
  length (flat_map (fun a : string * Coord * bool =>
                      if snd a then [] else [snd (fst a); snd (fst a)]) attempts)
  = 2 * length (List.filter (fun a : string * Coord * bool => negb (snd a)) attempts).
Proof.
  induction attempts as [|[[t c] ok] rest IH]; [reflexivity|].
  cbn [flat_map List.filter snd fst negb]. destruct ok; cbn [negb app length]; lia.
Qed.

(** X1. A retry with a trip id set issues one write per queued coordinate, in
    queue order, each to the current trip; afterwards the queue holds, in
    the same order, every coordinate whose write failed, twice, and
    nothing else, so that the pending count is twice the number of failed
    writes; the trip id is kept. *)
Theorem retry_writes_once_per_coordinate (tripId : string) (s : Svc) (db : Store) :
  currentTripId s = Some tripId -> tripId <> EmptyString ->
  let w' := retryPendingUpdates firestore_update firestore_add (s, db) in
  exists attempts,
    update_calls (snd w') = update_calls db ++ attempts
    /\ map (fun a : string * Coord * bool => snd (fst a)) attempts = pendingUpdates s
    /\ Forall (fun a : string * Coord * bool => fst (fst a) = tripId) attempts
    /\ pendingUpdates (fst w')
       = flat_map (fun a : string * Coord * bool => if snd a then [] else [snd (fst a); snd (fst a)]) attempts
    /\ getPendingUpdatesCount (fst w')
       = 2 * length (List.filter (fun a : string * Coord * bool => negb (snd a)) attempts)
    /\ currentTripId (fst w') = Some tripId.
Proof.
  intros Hid Hne. cbn zeta.
  destruct (retry_attempts tripId s db Hid Hne) as (attempts & H1 & H2 & H3 & H4 & H5).
  exists attempts. split; [exact H1|]. split; [exact H2|]. split; [exact H3|].
  split; [exact H4|]. split; [|exact H5].
  unfold getPendingUpdatesCount. rewrite H4. apply length_requeued.
Qed.

(** The outcome of each call of a run of location callbacks, as logged. *)
Lemma updateAll_log (calls : list (string * Coord)) : forall (s : Svc) (db : Store),
  let w' := updateAll firestore_update firestore_add calls (s, db) in
  exists new,
    update_calls (snd w') = update_calls db ++ new
    /\ map fst new = calls
    /\ pendingUpdates (fst w')
       = pendingUpdates s ++ map (fun a : string * Coord * bool => snd (fst a)) (List.filter (fun a : string * Coord * bool => negb (snd a)) new)
    /\ currentTripId (fst w') = currentTripId s
    /\ (exists hist, history_docs (snd w') = history_docs db ++ hist
                     /\ forall d, In d hist -> In (d, true) new).
Proof.
  induction calls as [|[t c] rest IH]; intros s db; cbn zeta.
  - exists []. cbn. rewrite !app_nil_r. repeat split; auto.
    exists []. now rewrite app_nil_r.
  - change (updateAll firestore_update firestore_add ((t, c) :: rest) (s, db))
      with (updateAll firestore_update firestore_add rest (snd (update t c (s, db)))).
    destruct (update t c (s, db)) as [r [s1 db1]] eqn:E. cbn [snd].
    destruct (IH s1 db1) as (new & H1 & H2 & H3 & H4 & hist & H5 & H6).
    cbn zeta in *. unfold updateCurrentLocation in E.
    destruct (firestore_update (length (update_calls db))) as [[]|e];
      injection E as <- <- <-.
    + unfold addToHistory, log_update in *.
      destruct (firestore_add (length (update_calls db)));
        cbn [update_calls history_docs] in *.
      * exists ((t, c, true) :: new). rewrite H1, H3, H4, <- app_assoc.
        cbn. rewrite H2. repeat split; auto.
        exists ((t, c) :: hist). rewrite H5, <- app_assoc. split; [reflexivity|].
        intros d [<- | Hd]; [now left | right; now apply H6].
      * exists ((t, c, true) :: new). rewrite H1, H3, H4, <- app_assoc.
        cbn. rewrite H2. repeat split; auto.
        exists hist. split; [assumption|]. intros d Hd. right. now apply H6.
    + unfold log_update, push_pending in *. cbn [update_calls history_docs] in *.
      exists ((t, c, false) :: new). rewrite H1, H3, H4. cbn.
      rewrite <- !app_assoc, H2. cbn. repeat split; auto.
      exists hist. split; [assumption|]. intros d Hd. right. now apply H6.
Qed.

(** X2. After any run of location callbacks, whatever the network did: one
    write was issued per callback, in call order; the queue grew by exactly
    the coordinates whose write failed, in call order; a history document
    was added only for a write that succeeded. *)
Theorem queue_holds_the_failed_updates
    (calls : list (string * Coord)) (s : Svc) (db : Store) :
  let w' := updateAll firestore_update firestore_add calls (s, db) in
  exists new,
    update_calls (snd w') = update_calls db ++ new
    /\ map fst new = calls
    /\ pendingUpdates (fst w')
       = pendingUpdates s ++ map (fun a : string * Coord * bool => snd (fst a)) (List.filter (fun a : string * Coord * bool => negb (snd a)) new)
    /\ getPendingUpdatesCount (fst w')
       = getPendingUpdatesCount s + length (List.filter (fun a : string * Coord * bool => negb (snd a)) new)
    /\ (exists hist, history_docs (snd w') = history_docs db ++ hist
                     /\ forall d, In d hist -> In (d, true) new).
Proof.
  cbn zeta. destruct (updateAll_log calls s db) as (new & H1 & H2 & H3 & _ & H5).
  exists new. repeat split; auto.
  unfold getPendingUpdatesCount. rewrite H3, length_app, length_map. reflexivity.
Qed.

(** X3. Completing a trip clears the current trip id and keeps the
    pending queue, so that a retry submits nothing; once the id of a next
    trip is set, a retry writes the coordinates left over from the
    completed trip, one write each and in queue order, to the next trip. *)
Theorem completed_trip_hands_its_queue_on (tripId next : string) (s : Svc) (db : Store) :
  next <> EmptyString ->
  let s' := snd (completeTripLocation (Return tt) tripId s) in
  let w2 := retryPendingUpdates firestore_update firestore_add
              (setCurrentTripId next s', db) in
  fst (completeTripLocation (Return tt) tripId s) = Return tt
  /\ getCurrentTripId s' = None
  /\ pendingUpdates s' = pendingUpdates s
  /\ retryPendingUpdates firestore_update firestore_add (s', db) = (s', db)
  /\ exists attempts,
       update_calls (snd w2) = update_calls db ++ attempts
       /\ map (fun a : string * Coord * bool => snd (fst a)) attempts = pendingUpdates s
       /\ Forall (fun a : string * Coord * bool => fst (fst a) = next) attempts.
Proof.
  intros Hne. cbn zeta. cbn [completeTripLocation fst snd].
  split; [reflexivity|]. split; [reflexivity|]. split; [reflexivity|].
  split.
  - unfold retryPendingUpdates. cbn. now rewrite orb_true_r.
  - destruct (retry_attempts next
                (setCurrentTripId next
                   {| pendingUpdates := pendingUpdates s; currentTripId := None |})
                db eq_refl Hne) as (attempts & H1 & H2 & H3 & _).
    exists attempts. auto.
Qed.

End Queue.
Import Samples.

(** On a queue of two coordinates, with the first write failing. *)
Lemma retry_writes_once_per_coordinate_witness :
  let s := {| pendingUpdates := [c1; c2]; currentTripId := Some "trip-1"%string |} in
  let w := retryPendingUpdates (offline_for 1) history_up (s, no_writes) in
  exists attempts,
    update_calls (snd w) = update_calls no_writes ++ attempts
    /\ map (fun a : string * Coordinate * bool => snd (fst a)) attempts = [c1; c2]
    /\ Forall (fun a : string * Coordinate * bool => fst (fst a) = "trip-1"%string) attempts
    /\ pendingUpdates (fst w)
       = flat_map (fun a : string * Coordinate * bool =>
                     if snd a then [] else [snd (fst a); snd (fst a)]) attempts
    /\ getPendingUpdatesCount (fst w)
       = 2 * length (List.filter (fun a : string * Coordinate * bool => negb (snd a))
                       attempts)
    /\ currentTripId (fst w) = Some "trip-1"%string.
Proof.
  apply (retry_writes_once_per_coordinate (offline_for 1) history_up "trip-1"%string
           {| pendingUpdates := [c1; c2]; currentTripId := Some "trip-1"%string |}
           no_writes).
  - reflexivity.
  - discriminate.
Defined.

(** Trip-1 is completed with two coordinates queued, and trip-2 is
    next. *)
Lemma completed_trip_hands_its_queue_on_witness :
  let s := {| pendingUpdates := [c1; c2]; currentTripId := Some "trip-1"%string |} in
  let s' := snd (completeTripLocation (Return tt) "trip-1" s) in
  let w2 := retryPendingUpdates (offline_for 0) history_up
              (setCurrentTripId "trip-2" s', no_writes) in
  getCurrentTripId s' = None
  /\ retryPendingUpdates (offline_for 0) history_up (s', no_writes) = (s', no_writes)
  /\ exists attempts,
       update_calls (snd w2) = update_calls no_writes ++ attempts
       /\ map (fun a : string * Coordinate * bool => snd (fst a)) attempts = [c1; c2]
       /\ Forall (fun a : string * Coordinate * bool => fst (fst a) = "trip-2"%string)
            attempts.
Proof.
  intros s s' w2.
  destruct (completed_trip_hands_its_queue_on (offline_for 0) history_up
              "trip-1"%string "trip-2"%string s no_writes ltac:(discriminate))
    as (_ & H2 & _ & H4 & H5).
  split; [exact H2|]. split; [exact H4 | exact H5].
Defined.

End TripLocationQueueFacts.

(** ** What [retryOperation] and [safeAsyncCall] answer *)

Module RetryFacts.
Import ErrorHandler ErrorHandlerFacts.

Lemma calls_app tr1 tr2 : calls (tr1 ++ tr2) = calls tr1 ++ calls tr2.
Proof.
  induction tr1 as [|[k|ms] tr1 IH]; cbn; [reflexivity | now f_equal | assumption].
Qed.

Section Retry.
Context {T : Type}.
Variable operation : nat -> result T.

Lemma retry_loop_success maxRetries delayMs j v :
  operation j = Return v ->
  forall remaining i lastError trace,
    remaining + i = maxRetries -> i <= j -> j < maxRetries ->
    (forall k, i <= k < j -> is_return (operation k) = false) ->
    let r := retry_loop operation maxRetries delayMs remaining i lastError trace in
    fst r = Return v
    /\ calls (snd r) = calls trace ++ seq i (S j - i)
    /\ delays (snd r) = delays trace ++ map (wait_after delayMs) (seq i (j - i)).
Proof.
  intros Hj. induction remaining as [|remaining IH];
    intros i lastError trace Hsum Hij Hjm Hfail; cbn zeta; [lia|].
  cbn [retry_loop]. destruct (Nat.eq_dec i j) as [->|Hne].
  - rewrite Hj. cbn [fst snd]. rewrite calls_app, delays_app.
    replace (S j - j) with 1 by lia. replace (j - j) with 0 by lia.
    cbn. now rewrite app_nil_r.
  - specialize (Hfail i ltac:(lia)) as Hi.
    destruct (operation i) as [x|e]; [discriminate|].
    destruct (Z.ltb_spec (Z.of_nat i) (Z.of_nat maxRetries - 1)) as [_|Hge]; [|lia].
    destruct (IH (S i) e (trace ++ [Call i; Sleep (delayMs * (Z.of_nat i + 1))])
                ltac:(lia) ltac:(lia) Hjm) as (H1 & H2 & H3).
    { intros k Hk. apply Hfail. lia. }
    cbn zeta in *. rewrite H1, H2, H3, calls_app, delays_app. cbn.
    replace (S j - i) with (S (j - i)) by lia.
    replace (j - i) with (S (j - S i)) by lia.
    cbn. rewrite <- !app_assoc. cbn. repeat split.
Qed.

Lemma retry_loop_exhausted maxRetries delayMs :
  (forall k, k < maxRetries -> is_return (operation k) = false) ->
  forall remaining i lastError trace,
    remaining + i = maxRetries ->
    let r := retry_loop operation maxRetries delayMs remaining i lastError trace in
    (exists e, fst r = Throw e
               /\ (remaining = 0 -> e = lastError)
               /\ (0 < remaining -> operation (maxRetries - 1) = Throw e))
    /\ calls (snd r) = calls trace ++ seq i remaining
    /\ delays (snd r) = delays trace ++ map (wait_after delayMs) (seq i (remaining - 1)).
Proof.
  intros Hfail. induction remaining as [|remaining IH];
    intros i lastError trace Hsum; cbn zeta; cbn [retry_loop].
  - cbn. rewrite !app_nil_r. split; [|split; reflexivity].
    exists lastError. split; [reflexivity|]. split; [reflexivity | lia].
  - specialize (Hfail i ltac:(lia)) as Hi.
    destruct (operation i) as [x|e] eqn:E; [discriminate|].
    destruct (Z.ltb_spec (Z.of_nat i) (Z.of_nat maxRetries - 1)) as [Hlt|Hge].
    + destruct (IH (S i) e (trace ++ [Call i; Sleep (delayMs * (Z.of_nat i + 1))])
                  ltac:(lia)) as ((e' & H1 & H1a & H1b) & H2 & H3).
      cbn zeta in *. rewrite H2, H3, calls_app, delays_app. cbn.
      rewrite <- !app_assoc. cbn. split; [|split].
      * exists e'. split; [assumption|]. split; [lia|]. intros _. apply H1b. lia.
      * reflexivity.
      * rewrite Nat.sub_0_r. destruct remaining as [|r]; [lia|]. cbn.
        rewrite Nat.sub_0_r. reflexivity.
    + destruct (IH (S i) e (trace ++ [Call i]) ltac:(lia))
        as ((e' & H1 & H1a & H1b) & H2 & H3).
      assert (remaining = 0) by lia. subst remaining.
      cbn zeta in *. rewrite H2, H3, calls_app, delays_app. cbn.
      rewrite !app_nil_r. split; [|split; reflexivity].
      exists e'. split; [assumption|]. split; [lia|].
      intros _. rewrite (H1a eq_refl). replace (maxRetries - 1) with i by lia. exact E.
Qed.

Lemma retry_loop_bound maxRetries delayMs : forall remaining i lastError trace,
  length (calls (snd (retry_loop operation maxRetries delayMs remaining i lastError trace)))
  <= length (calls trace) + remaining.
Proof.
  induction remaining as [|remaining IH]; intros i lastError trace; cbn [retry_loop].
  - cbn. lia.
  - destruct (operation i) as [x|e].
    + cbn. rewrite calls_app, length_app. cbn. lia.
    + etransitivity; [apply IH|].
      destruct (Z.of_nat i <? Z.of_nat maxRetries - 1)%Z;
        rewrite calls_app, length_app; cbn; lia.
Qed.

(** X4. [retryOperation] answers the first success: when attempt [j] (below
    [maxRetries]) is the first to succeed, its value is returned, the
    operation was invoked exactly [j + 1] times, and the waits were those
    after attempts 0 to [j - 1]. *)
Theorem retryOperation_returns_first_success
    (maxRetries : nat) (delayMs : Z) (j : nat) (v : T) :
  j < maxRetries ->
  operation j = Return v ->
  (forall k, k < j -> is_return (operation k) = false) ->
  let r := retryOperation operation maxRetries delayMs in
  fst r = Return v
  /\ calls (snd r) = seq 0 (S j)
  /\ delays (snd r) = map (wait_after delayMs) (seq 0 j).
Proof.
  intros Hj Hv Hfail. cbn zeta. unfold retryOperation.
  destruct (retry_loop_success maxRetries delayMs j v Hv maxRetries 0 UndefinedThrown []
              ltac:(lia) ltac:(lia) Hj) as (H1 & H2 & H3).
  { intros k Hk. apply Hfail. lia. }
  cbn zeta in *. rewrite H1, H2, H3. cbn. now rewrite !Nat.sub_0_r.
Qed.

Lemma sum_waits delayMs m :
  (2 * fold_right Z.add 0 (map (wait_after delayMs) (seq 0 m))
   = delayMs * Z.of_nat m * (Z.of_nat m + 1))%Z.
Proof.
  assert (G : forall m i,
             (2 * fold_right Z.add 0 (map (wait_after delayMs) (seq i m))
              = delayMs * Z.of_nat m * (2 * Z.of_nat i + Z.of_nat m + 1))%Z).
  { clear m. induction m as [|m IH]; intros i; cbn [seq map fold_right]; [lia|].
    rewrite Z.mul_add_distr_l, IH. unfold wait_after. lia. }
  rewrite G. lia.
Qed.

(** X5. [retryOperation] gives up after [maxRetries] attempts: when every
    attempt fails it has invoked the operation exactly [maxRetries] times,
    rethrows the error of the last attempt, and has waited
    [delayMs * maxRetries * (maxRetries - 1) / 2] milliseconds in all
    (3000 ms with the defaults). *)
Theorem retryOperation_gives_up (maxRetries : nat) (delayMs : Z) (e : JsError) :
  0 < maxRetries ->
  (forall k, k < maxRetries -> is_return (operation k) = false) ->
  operation (maxRetries - 1) = Throw e ->
  let r := retryOperation operation maxRetries delayMs in
  fst r = Throw e
  /\ calls (snd r) = seq 0 maxRetries
  /\ (2 * total_wait (snd r)
      = delayMs * Z.of_nat maxRetries * (Z.of_nat maxRetries - 1))%Z.
Proof.
  intros Hpos Hfail Hlast. cbn zeta. unfold retryOperation, total_wait.
  destruct (retry_loop_exhausted maxRetries delayMs Hfail maxRetries 0 UndefinedThrown []
              ltac:(lia)) as ((e' & H1 & _ & H1b) & H2 & H3).
  cbn zeta in *. rewrite H1, H2, H3. cbn [calls delays app].
  specialize (H1b Hpos). rewrite Hlast in H1b. injection H1b as <-.
  repeat split. rewrite sum_waits.
  replace (Z.of_nat (maxRetries - 1)) with (Z.of_nat maxRetries - 1)%Z by lia. ring.
Qed.

(** X6. Whatever the operation does, [retryOperation] invokes it at most
    [maxRetries] times; with [maxRetries = 0] it invokes nothing and throws
    [undefined]. *)
Theorem retryOperation_calls_at_most_maxRetries (maxRetries : nat) (delayMs : Z) :
  length (calls (snd (retryOperation operation maxRetries delayMs))) <= maxRetries
  /\ retryOperation operation 0 delayMs = (Throw UndefinedThrown, []).
Proof.
  split; [|reflexivity]. unfold retryOperation.
  apply (retry_loop_bound maxRetries delayMs maxRetries 0 UndefinedThrown []).
Qed.

End Retry.

(** X7. [safeAsyncCall] with no handler, or with a handler that returns, never
    throws: it hands a successful value through untouched (a falsy one
    too), and after a failure it answers the fallback when that is truthy
    and [null] otherwise, so that a fallback of [0], [''] or [false] is
    lost. *)
Theorem safeAsyncCall_never_throws (outcome : result Js.Value) (fallback : Js.Value)
    (errorHandler : option (JsError -> result unit)) :
  (forall handler e, errorHandler = Some handler -> is_return (handler e) = true) ->
  (forall v, outcome = Return v ->
             safeAsyncCall outcome fallback errorHandler = Return v)
  /\ (forall e, outcome = Throw e -> Js.truthy fallback = true ->
                safeAsyncCall outcome fallback errorHandler = Return fallback)
  /\ (forall e, outcome = Throw e -> Js.truthy fallback = false ->
                safeAsyncCall outcome fallback errorHandler = Return Js.Null).
Proof.
  intros Hh. repeat split.
  - now intros v ->.
  - intros e -> Ht. cbn. destruct errorHandler as [h|]; [|now rewrite Ht].
    specialize (Hh h e eq_refl). destruct (h e); [now rewrite Ht | discriminate].
  - intros e -> Ht. cbn. destruct errorHandler as [h|]; [|now rewrite Ht].
    specialize (Hh h e eq_refl). destruct (h e); [now rewrite Ht | discriminate].
Qed.

Import Samples.

Lemma retryOperation_returns_first_success_witness :
  let r := retryOperation third_time_lucky default_maxRetries default_delayMs in
  fst r = Return 7
  /\ calls (snd r) = [0; 1; 2]
  /\ delays (snd r) = [1000; 2000]%Z.
Proof.
  apply (retryOperation_returns_first_success third_time_lucky
           default_maxRetries default_delayMs 2 7).
  - unfold default_maxRetries. lia.
  - reflexivity.
  - intros k Hk. unfold third_time_lucky.
    destruct (Nat.ltb_spec k 2); [reflexivity | lia].
Defined.

Lemma retryOperation_gives_up_witness :
  let r := retryOperation always_fails default_maxRetries default_delayMs in
  fst r = Throw (Error "boom")
  /\ calls (snd r) = [0; 1; 2]
  /\ (2 * total_wait (snd r) = 1000 * 3 * (3 - 1))%Z.
Proof.
  apply (retryOperation_gives_up always_fails default_maxRetries default_delayMs
           (Error "boom")).
  - unfold default_maxRetries. lia.
  - reflexivity.
  - reflexivity.
Defined.

Lemma safeAsyncCall_never_throws_witness :
  safeAsyncCall (Throw (Error "down")) (Js.Num (Js.Finite 0)) None = Return Js.Null.
Proof.
  refine (proj2 (proj2 (safeAsyncCall_never_throws (Throw (Error "down"))
                          (Js.Num (Js.Finite 0)) None _))
                (Error "down") eq_refl eq_refl).
  intros handler e H. discriminate H.
Defined.

End RetryFacts.

(** ** The mock trip service: what a trip records *)

Module MockTripRecordFacts.
Import Haversine MockTrip MockTripFacts.

Section Records.
Context {num : Type} {A : Arith num}.

Local Abbreviation Svc := (@Service num).
Local Abbreviation Loc := (@Location num).
Local Abbreviation TripT := (@Trip num).

Lemma listeners_notifyListeners tripId (trip : TripT) (s : Svc) :
  listeners (notifyListeners tripId trip s) = listeners s.
Proof.
  unfold notifyListeners.
  destruct (bool_decide (tripId ∈ listeners s));
    match goal with |- context [if ?b then _ else _] => destruct b end;
    reflexivity.
Qed.

Lemma trips_written tripId (trip : TripT) (s : Svc) other :
  other <> tripId ->
  trips (notifyListeners tripId trip (set_trip tripId trip s)) !! other = trips s !! other.
Proof.
  intros Hne. rewrite trips_notifyListeners. cbn. now rewrite lookup_insert_ne.
Qed.

(** X8. An operation writes one trip: every other trip of the map is as it
    was, and so is the set of listeners. *)
Theorem operations_touch_one_trip (op : Op) (s : Svc) (other : string) :
  other <> target op ->
  trips (run op s) !! other = trips s !! other
  /\ listeners (run op s) = listeners s.
Proof.
  intros Hne. destruct op as [d stamp now | t l started now | t l now | t l n now];
    cbn [target] in Hne; cbn [run].
  - cbn. now rewrite lookup_insert_ne.
  - unfold startTrip. destruct (trips s !! t); cbn [snd]; [|easy].
    now rewrite trips_written, listeners_notifyListeners.
  - unfold updateTripLocation. destruct (trips s !! t); [|easy].
    now rewrite trips_written, listeners_notifyListeners.
  - unfold endTrip. destruct (trips s !! t); cbn [snd]; [|easy].
    now rewrite trips_written, listeners_notifyListeners.
Qed.

(** X9. On a trip id that is not in the map [startTrip] and [endTrip] throw
    their own error, [updateTripLocation] returns without a word, and the
    service is untouched by all three. *)
Theorem unknown_trip_is_refused (s : Svc) (tripId : string) :
  trips s !! tripId = None ->
  (forall loc started now,
      startTrip tripId loc started now s = (Throw (Error "Failed to start trip"), s))
  /\ (forall loc note now,
        endTrip tripId loc note now s = (Throw (Error "Failed to end trip"), s))
  /\ (forall loc now, updateTripLocation tripId loc now s = s).
Proof.
  intros Hno. unfold startTrip, endTrip, updateTripLocation. rewrite Hno. auto.
Qed.

Lemma last_cons_default {T : Type} (x : T) (l : list T) (d d' : T) :
  List.last (x :: l) d = List.last (x :: l) d'.
Proof.
  revert x. induction l as [|y l IH]; intros x; [reflexivity|].
  change (List.last (y :: l) d = List.last (y :: l) d'). apply IH.
Qed.

(** What a run of location updates leaves in an existing trip. *)
Lemma updateMany_spec tripId (updates : list (Loc * Z)) : forall (s : Svc) (trip : TripT),
  trips s !! tripId = Some trip ->
  exists trip',
    trips (updateMany tripId updates s) !! tripId = Some trip'
    /\ waypoints trip' = waypoints trip ++ map fst updates
    /\ status trip' = status trip
    /\ startTime trip' = startTime trip
    /\ startLocation trip' = startLocation trip
    /\ currentLocation trip'
       = List.last (map Some (map fst updates)) (currentLocation trip).
Proof.
  induction updates as [|[loc now] rest IH]; intros s trip Hin.
  - exists trip. cbn. rewrite app_nil_r. repeat split; auto.
  - unfold updateMany. cbn [fold_left fst snd].
    unfold updateTripLocation at 2. rewrite Hin. cbv zeta.
    match goal with |- context [set_trip tripId ?t s] => set (trip1 := t) end.
    destruct (IH (notifyListeners tripId trip1 (set_trip tripId trip1 s)) trip1)
      as (trip' & H1 & H2 & H3 & H4 & H5 & H6).
    { rewrite trips_notifyListeners. cbn. apply lookup_insert_eq. }
    exists trip'. unfold updateMany in H1. rewrite H1, H2, H3, H4, H5, H6.
    cbn. rewrite <- app_assoc. repeat split; auto.
    destruct (map Some (map fst rest)) as [|x l]; [reflexivity|].
    apply last_cons_default.
Qed.

(** X10. The summary [endTrip] returns for a trip that was started, tracked
    and ended: status completed, the start time [startTrip] read, the
    duration from it to the end, the waypoints of the location updates in
    call order after those the trip had, and as distance the total over
    these waypoints (the start and end locations are no waypoints). *)
Theorem ended_trip_summary (s : Svc) (tripId : string) (trip : TripT)
    (startLoc endLoc : Loc) (started now1 now2 : Z) (note : option string)
    (updates : list (Loc * Z)) :
  trips s !! tripId = Some trip ->
  started <> 0%Z ->
  let s1 := snd (startTrip tripId startLoc started now1 s) in
  let s2 := updateMany tripId updates s1 in
  exists ended,
    endTrip tripId endLoc note now2 s2
    = (Return ended,
       notifyListeners tripId ended (set_trip tripId ended s2))
    /\ getTrip tripId (snd (endTrip tripId endLoc note now2 s2)) = Some ended
    /\ status ended = completed
    /\ startLocation ended = Some startLoc
    /\ endLocation ended = Some endLoc
    /\ startTime ended = Some started
    /\ endTime ended = Some now2
    /\ duration ended = Some (now2 - started)%Z
    /\ waypoints ended = waypoints trip ++ map fst updates
    /\ distance ended = Some (calculateTotalDistance (waypoints trip ++ map fst updates)).
Proof.
  intros Hin Hstart. cbn zeta.
  unfold startTrip. rewrite Hin. cbv zeta. cbn [snd].
  match goal with |- context [set_trip tripId ?t s] => set (trip1 := t) end.
  set (s1 := notifyListeners tripId trip1 (set_trip tripId trip1 s)).
  destruct (updateMany_spec tripId updates s1 trip1) as (trip2 & H1 & H2 & H3 & H4 & H5 & H6).
  { unfold s1. rewrite trips_notifyListeners. cbn. apply lookup_insert_eq. }
  unfold endTrip. rewrite H1. cbv zeta. eexists. split; [reflexivity|].
  cbn [snd]. unfold getTrip. rewrite trips_notifyListeners. cbn [set_trip trips].
  rewrite lookup_insert_eq. cbn.
  rewrite H2, H4, H5. cbn. unfold elapsed.
  destruct (Z.eqb_spec started 0) as [E|_]; [contradiction|].
  repeat split; auto.
Qed.

(** X11. A trip that was never started is ended with duration 0. *)
Theorem unstarted_trip_has_no_duration (s : Svc) (tripId : string) (trip : TripT)
    (endLoc : Loc) (note : option string) (now : Z) :
  trips s !! tripId = Some trip ->
  startTime trip = None ->
  exists ended,
    fst (endTrip tripId endLoc note now s) = Return ended
    /\ status ended = completed
    /\ duration ended = Some 0%Z.
Proof.
  intros Hin Hnone. unfold endTrip. rewrite Hin. cbv zeta. eexists.
  split; [reflexivity|]. cbn. now rewrite Hnone.
Qed.

Lemma run_keeps_listeners (op : Op) (s : Svc) : listeners (run op s) = listeners s.
Proof.
  destruct op as [d stamp now | t l started now | t l now | t l n now]; cbn [run].
  - reflexivity.
  - unfold startTrip. destruct (trips s !! t); cbn [snd]; [|reflexivity].
    now rewrite listeners_notifyListeners.
  - unfold updateTripLocation. destruct (trips s !! t); [|reflexivity].
    now rewrite listeners_notifyListeners.
  - unfold endTrip. destruct (trips s !! t); cbn [snd]; [|reflexivity].
    now rewrite listeners_notifyListeners.
Qed.

Lemma run_keeps_other_trips (op : Op) (s : Svc) (other : string) :
  other <> target op -> trips (run op s) !! other = trips s !! other.
Proof.
  intros Hne. destruct op as [d stamp now | t l started now | t l now | t l n now];
    cbn [target] in Hne; cbn [run].
  - cbn. now rewrite lookup_insert_ne.
  - unfold startTrip. destruct (trips s !! t); cbn [snd]; [|easy].
    now rewrite trips_written.
  - unfold updateTripLocation. destruct (trips s !! t); [|easy].
    now rewrite trips_written.
  - unfold endTrip. destruct (trips s !! t); cbn [snd]; [|easy].
    now rewrite trips_written.
Qed.

Lemma run_keeps_trip (op : Op) (s : Svc) (tripId : string) :
  is_Some (trips s !! tripId) -> is_Some (trips (run op s) !! tripId).
Proof.
  intros [trip Hin]. destruct (decide (tripId = target op)) as [->|Hne].
  - destruct op as [d stamp now | t l started now | t l now | t l n now];
      cbn [target] in Hin; cbn [target run].
    + cbn. rewrite lookup_insert_eq. eauto.
    + unfold startTrip. rewrite Hin. cbv zeta. cbn [snd].
      rewrite trips_notifyListeners. cbn. rewrite lookup_insert_eq. eauto.
    + unfold updateTripLocation. rewrite Hin. cbv zeta.
      rewrite trips_notifyListeners. cbn. rewrite lookup_insert_eq. eauto.
    + unfold endTrip. rewrite Hin. cbv zeta. cbn [snd].
      rewrite trips_notifyListeners. cbn. rewrite lookup_insert_eq. eauto.
  - rewrite run_keeps_other_trips by assumption. eauto.
Qed.

Lemma runs_keep_subscription (ops : list Op) (tripId : string) : forall s : Svc,
  tripId ∈ listeners s -> is_Some (trips s !! tripId) ->
  tripId ∈ listeners (fold_left (fun s o => run o s) ops s)
  /\ is_Some (trips (fold_left (fun s o => run o s) ops s) !! tripId).
Proof.
  induction ops as [|op rest IH]; intros s Hl Ht; [now split|].
  cbn [fold_left]. apply IH.
  - now rewrite run_keeps_listeners.
  - now apply run_keeps_trip.
Qed.

(** What a write on a trip with a registered listener delivers. *)
Lemma write_is_heard (tripId : string) (written : TripT) (s : Svc) :
  tripId ∈ listeners s ->
  delivered (notifyListeners tripId written (set_trip tripId written s))
  = delivered s
    ++ (tripId, Some written)
       :: (if bool_decide (("active_" ++ driverId written)%string ∈ listeners s)
              && is_open (status written)
           then [(("active_" ++ driverId written)%string, Some written)] else []).
Proof.
  intros Hsub. unfold notifyListeners.
  replace (bool_decide (tripId ∈ listeners (set_trip tripId written s)))
    with true by (symmetry; apply bool_decide_eq_true; exact Hsub).
  cbn [call_listener listeners set_trip delivered].
  destruct (bool_decide (("active_" ++ driverId written)%string ∈ listeners s)
            && is_open (status written)); cbn.
  - rewrite <- app_assoc. reflexivity.
  - reflexivity.
Qed.

(** X12. A subscriber of a trip is called at once with the trip as it is;
    from then on, whatever operations the service has run in between,
    each [startTrip], [updateTripLocation] and [endTrip] on the trip calls
    the subscriber once with the trip as written, and after it the
    listener of the driver's active trip when there is one and the trip is
    pending or active. *)
Theorem subscriber_hears_every_write
    (s : Svc) (tripId : string) (trip : TripT) (ops : list Op) (op : Op) :
  trips s !! tripId = Some trip ->
  target op = tripId ->
  (forall d stamp now, op <> CreateTrip d stamp now) ->
  let s1 := subscribeToTrip tripId s in
  let s2 := fold_left (fun s o => run o s) ops s1 in
  delivered s1 = delivered s ++ [(tripId, Some trip)]
  /\ exists written,
       trips (run op s2) !! tripId = Some written
       /\ delivered (run op s2)
          = delivered s2
            ++ (tripId, Some written)
               :: (if bool_decide (("active_" ++ driverId written)%string ∈ listeners s2)
                      && is_open (status written)
                   then [(("active_" ++ driverId written)%string, Some written)]
                   else []).
Proof.
  intros Hin Htarget Hop. cbn zeta.
  split; [unfold subscribeToTrip; cbn; now rewrite Hin|].
  destruct (runs_keep_subscription ops tripId (subscribeToTrip tripId s))
    as [Hsub [current Hcur]].
  { cbn. set_solver. }
  { cbn. rewrite Hin. eauto. }
  set (s2 := fold_left (fun s o => run o s) ops (subscribeToTrip tripId s)) in *.
  destruct op as [d stamp now | t l started now | t l now | t l n now];
    cbn [target] in Htarget; subst; cbn [run].
  - now destruct (Hop d stamp now).
  - unfold startTrip. rewrite Hcur. cbv zeta. cbn [snd].
    match goal with |- context [notifyListeners _ ?w _] => exists w end.
    split; [rewrite trips_notifyListeners; cbn; apply lookup_insert_eq|].
    now apply write_is_heard.
  - unfold updateTripLocation. rewrite Hcur. cbv zeta.
    match goal with |- context [notifyListeners _ ?w _] => exists w end.
    split; [rewrite trips_notifyListeners; cbn; apply lookup_insert_eq|].
    now apply write_is_heard.
  - unfold endTrip. rewrite Hcur. cbv zeta. cbn [snd].
    match goal with |- context [notifyListeners _ ?w _] => exists w end.
    split; [rewrite trips_notifyListeners; cbn; apply lookup_insert_eq|].
    now apply write_is_heard.
Qed.

(** X13. [endTrip] calls no listener but the one registered under the trip id:
    the listener of the driver's active trip is not told that the trip is
    completed. *)
Theorem endTrip_skips_the_active_listener (s : Svc) (tripId : string) (trip : TripT)
    (endLoc : Loc) (note : option string) (now : Z) :
  trips s !! tripId = Some trip ->
  exists ended,
    fst (endTrip tripId endLoc note now s) = Return ended
    /\ delivered (snd (endTrip tripId endLoc note now s))
       = delivered s ++ (if bool_decide (tripId ∈ listeners s)
                         then [(tripId, Some ended)] else []).
Proof.
  intros Hin. unfold endTrip. rewrite Hin. cbv zeta. eexists.
  split; [reflexivity|]. cbn [snd]. unfold notifyListeners. cbn [status is_open].
  rewrite andb_false_r. cbn [set_trip listeners].
  destruct (bool_decide (tripId ∈ listeners s)); cbn; [reflexivity | now rewrite app_nil_r].
Qed.

End Records.
Import Samples.

Local Abbreviation run_real := (@run R real_arith).

(** Starting the trip created at [today_ms] leaves another id alone. *)
Lemma operations_touch_one_trip_witness :
  let s1 := run_real (CreateTrip None today_ms today_ms) empty in
  let s2 := run_real (StartTrip first_trip zocalo 1 1) s1 in
  trips s2 !! "trip_2"%string = trips s1 !! "trip_2"%string
  /\ listeners s2 = listeners s1.
Proof.
  apply (operations_touch_one_trip (A := real_arith)
           (StartTrip first_trip zocalo 1 1)
           (run_real (CreateTrip None today_ms today_ms) empty) "trip_2"%string).
  cbn. discriminate.
Defined.

(** On a service without trips. *)
Lemma unknown_trip_is_refused_witness :
  updateTripLocation first_trip zocalo 5 empty = empty.
Proof.
  exact (proj2 (proj2 (unknown_trip_is_refused (A := real_arith) empty first_trip
                         eq_refl))
               zocalo 5%Z).
Defined.

(** The trip created at [today_ms], started at 10, tracked twice and
    ended at 40. *)
Lemma ended_trip_summary_witness :
  let s0 := run_real (CreateTrip None today_ms today_ms) empty in
  let s1 := snd (startTrip first_trip zocalo 10 10 s0) in
  let s2 := updateMany first_trip [(zocalo, 20%Z); (zocalo, 30%Z)] s1 in
  exists ended,
    fst (endTrip (A := real_arith) first_trip zocalo None 40 s2) = Return ended
    /\ status ended = completed
    /\ startTime ended = Some 10%Z
    /\ endTime ended = Some 40%Z
    /\ duration ended = Some (40 - 10)%Z.
Proof.
  intros s0 s1 s2.
  destruct (trips s0 !! first_trip) as [trip|] eqn:E; [|discriminate E].
  destruct (ended_trip_summary (A := real_arith) s0 first_trip trip zocalo zocalo
              10 10 40 None [(zocalo, 20%Z); (zocalo, 30%Z)] E ltac:(discriminate))
    as (ended & H1 & _ & H3 & _ & _ & H6 & H7 & H8 & _).
  exists ended. split; [exact (f_equal fst H1)|]. auto.
Defined.

(** The trip created at [today_ms], ended without a start. *)
Lemma unstarted_trip_has_no_duration_witness :
  let s0 := run_real (CreateTrip None today_ms today_ms) empty in
  exists ended,
    fst (endTrip (A := real_arith) first_trip zocalo None 40 s0) = Return ended
    /\ status ended = completed
    /\ duration ended = Some 0%Z.
Proof.
  intros s0.
  destruct (trips s0 !! first_trip) as [trip|] eqn:E; [|discriminate E].
  apply (unstarted_trip_has_no_duration (A := real_arith) s0 first_trip trip
           zocalo None 40 E).
  injection E as <-. reflexivity.
Defined.

(** A subscriber of the trip created at [today_ms] hears the end of the
    trip after a start and a location update. *)
Lemma subscriber_hears_every_write_witness :
  let s0 := run_real (CreateTrip None today_ms today_ms) empty in
  let s1 := subscribeToTrip first_trip s0 in
  let s2 := fold_left (fun s o => run_real o s)
              [StartTrip first_trip zocalo 1 1; UpdateTripLocation first_trip zocalo 5]
              s1 in
  let s3 := run_real (EndTrip first_trip zocalo None 9) s2 in
  exists written,
    trips s3 !! first_trip = Some written
    /\ delivered s3
       = delivered s2
         ++ (first_trip, Some written)
            :: (if bool_decide (("active_" ++ driverId written)%string ∈ listeners s2)
                   && is_open (status written)
                then [(("active_" ++ driverId written)%string, Some written)]
                else []).
Proof.
  intros s0 s1 s2 s3.
  destruct (trips s0 !! first_trip) as [trip|] eqn:E; [|discriminate E].
  refine (proj2 (subscriber_hears_every_write (A := real_arith) s0 first_trip trip
                   [StartTrip first_trip zocalo 1 1;
                    UpdateTripLocation first_trip zocalo 5]
                   (EndTrip first_trip zocalo None 9) E eq_refl _)).
  intros d stamp now. discriminate.
Defined.

(** With a listener of the driver's active trip and none of the trip
    itself, [endTrip] calls nobody. *)
Lemma endTrip_skips_the_active_listener_witness :
  let s0 := run_real (CreateTrip None today_ms today_ms) empty in
  let s := {| trips := trips s0;
              listeners := {["active_mock_driver_id"%string]};
              delivered := [] |} in
  exists ended,
    fst (endTrip (A := real_arith) first_trip zocalo None 40 s) = Return ended
    /\ delivered (snd (endTrip (A := real_arith) first_trip zocalo None 40 s))
       = delivered s ++ (if bool_decide (first_trip ∈ listeners s)
                         then [(first_trip, Some ended)] else []).
Proof.
  intros s0 s.
  destruct (trips s !! first_trip) as [trip|] eqn:E; [|discriminate E].
  exact (endTrip_skips_the_active_listener (A := real_arith) s first_trip trip
           zocalo None 40 E).
Defined.

End MockTripRecordFacts.

(** ** The session: login, logout, and what is read back *)

Module SessionFacts.
Import ApiAuth ApiAuthFacts.

Section Session.
Context {P : Js.Platform}.

Lemma keys_differ : AUTH_TOKEN_KEY <> USER_DATA_KEY.
Proof. discriminate. Qed.

(** X14. A login that succeeds has stored what it returns: the token read back
    is the [jwt] of the returned user (a string), the user data is the
    user as [JSON.stringify] writes it, the authorization header carries
    the token, and no other key of the store has changed. *)
Theorem login_stores_what_it_returns
    (reply : FetchReply) (st : AsyncStorage) (user : Js.Value) :
  fst (login reply st) = Return user ->
  let st' := snd (login reply st) in
  exists jwt,
    Js.get user "jwt" = Return (Js.Str jwt)
    /\ getAuthToken st' = Return (Some jwt)
    /\ items st' !! USER_DATA_KEY = Some (Js.JSON_stringify user)
    /\ (forall key, key <> AUTH_TOKEN_KEY -> key <> USER_DATA_KEY ->
                    items st' !! key = items st !! key)
    /\ (jwt <> EmptyString ->
        getAuthHeader st'
        = Return (Js.Object [("Authorization"%string, Js.Str ("Bearer " ++ jwt))])).
Proof.
  cbn zeta. unfold login, login_try.
  destruct reply as [e | ok status body]; [discriminate|].
  destruct ok; cbn [negb]; [|discriminate].
  destruct (Js.JSON_parse body) as [userData|]; [|discriminate].
  unfold storeAuthData.
  destruct (Js.get userData "jwt") as [jwt|e] eqn:Hjwt; [|discriminate].
  unfold multiSet. destruct (available st) eqn:Hav; [|discriminate].
  destruct jwt as [| | b | n | jwt | l | props]; cbn [all_strings]; try discriminate.
  cbn [fst snd fold_left]. intros [= <-]. exists jwt.
  split; [assumption|].
  assert (Htok : getAuthToken
                   {| items := <[USER_DATA_KEY := Js.JSON_stringify userData]>
                                 (<[AUTH_TOKEN_KEY := jwt]> (items st));
                      available := true |} = Return (Some jwt)).
  { unfold getAuthToken, getItem. cbn.
    rewrite lookup_insert_ne by (apply not_eq_sym, keys_differ).
    now rewrite lookup_insert_eq. }
  split; [exact Htok|]. split; [cbn; apply lookup_insert_eq|].
  split.
  - intros key H1 H2. cbn. rewrite !lookup_insert_ne by congruence. reflexivity.
  - intros Hne. unfold getAuthHeader. rewrite Htok. cbn.
    destruct (String.eqb_spec jwt EmptyString); [contradiction | reflexivity].
Qed.

(** X15. A login that fails throws an [Error] and leaves the store as it was;
    for a response that is not OK the message is
    [Login failed: <status> - <body>]. *)
Theorem failed_login_changes_nothing
    (reply : FetchReply) (st : AsyncStorage) (e : JsError) :
  fst (login reply st) = Throw e ->
  snd (login reply st) = st
  /\ (exists message, e = Error message)
  /\ (forall status body,
        reply = Response false status body ->
        e = Error ("Login failed: " ++ status_text status ++ " - " ++ body)).
Proof.
  unfold login, login_try.
  destruct reply as [e0 | ok status body].
  - cbn. intros [= <-]. repeat split; eauto. intros; discriminate.
  - destruct ok; cbn [negb].
    + destruct (Js.JSON_parse body) as [userData|].
      * unfold storeAuthData.
        destruct (Js.get userData "jwt") as [jwt|e0].
        -- unfold multiSet. destruct (available st).
           ++ destruct (all_strings _); cbn; [discriminate|].
              intros [= <-]. repeat split; eauto. intros; discriminate.
           ++ cbn. intros [= <-]. repeat split; eauto. intros; discriminate.
        -- cbn. intros [= <-]. repeat split; eauto. intros; discriminate.
      * cbn. intros [= <-]. repeat split; eauto. intros; discriminate.
    + cbn. intros [= <-]. repeat split; eauto. now intros s b [= <- <-].
Qed.

(** X16. [logout()] on a store that answers removes the token and the user
    data and nothing else; afterwards no token is read, the user data is
    [null], the authorization header is empty and [isAuthenticated()] is
    [false] at any time. *)
Theorem logout_ends_the_session (st : AsyncStorage) :
  available st = true ->
  let st' := snd (logout st) in
  fst (logout st) = Return tt
  /\ getAuthToken st' = Return None
  /\ getUserData st' = Return Js.Null
  /\ getAuthHeader st' = Return (Js.Object [])
  /\ (forall now_ms, isAuthenticated st' now_ms = Return false)
  /\ (forall key, key <> AUTH_TOKEN_KEY -> key <> USER_DATA_KEY ->
                  items st' !! key = items st !! key).
Proof.
  intros Hav. cbn zeta. unfold logout, multiRemove. rewrite Hav. cbn [fst snd fold_left].
  assert (Htok : getAuthToken
                   {| items := delete USER_DATA_KEY (delete AUTH_TOKEN_KEY (items st));
                      available := true |} = Return None).
  { unfold getAuthToken, getItem. cbn.
    rewrite lookup_delete_ne by (apply not_eq_sym, keys_differ).
    now rewrite lookup_delete_eq. }
  assert (Hdata : getUserData
                    {| items := delete USER_DATA_KEY (delete AUTH_TOKEN_KEY (items st));
                       available := true |} = Return Js.Null).
  { unfold getUserData, getItem. cbn. now rewrite lookup_delete_eq. }
  split; [reflexivity|]. split; [exact Htok|]. split; [exact Hdata|].
  split; [unfold getAuthHeader; now rewrite Htok|].
  split.
  - intros now_ms. unfold isAuthenticated, isAuthenticated_try. now rewrite Htok, Hdata.
  - intros key H1 H2. cbn. rewrite !lookup_delete_ne by congruence. reflexivity.
Qed.

(** X17. [isAuthenticated()] answers [true] exactly when the store answers,
    holds a non-empty token and a non-empty user data text, the text
    parses to a truthy value, and the token is valid. *)
Theorem isAuthenticated_exactly_when (st : AsyncStorage) (now_ms : Z) :
  isAuthenticated st now_ms = Return true
  <-> (available st = true
       /\ exists token text userData,
            items st !! AUTH_TOKEN_KEY = Some token /\ token <> EmptyString
            /\ items st !! USER_DATA_KEY = Some text /\ text <> EmptyString
            /\ Js.JSON_parse text = Some userData /\ Js.truthy userData = true
            /\ isTokenValid token now_ms = Return true).
Proof.
  unfold isAuthenticated, isAuthenticated_try, getAuthToken, getUserData, getItem.
  destruct (available st); [|split; [discriminate | intros [H _]; discriminate]].
  split.
  - destruct (items st !! AUTH_TOKEN_KEY) as [token|] eqn:Ht.
    + destruct (items st !! USER_DATA_KEY) as [text|] eqn:Hu.
      * cbn [truthy_string]. destruct (String.eqb_spec token EmptyString) as [->|Hne].
        { destruct (String.eqb text EmptyString); [discriminate|].
          destruct (Js.JSON_parse text); discriminate. }
        destruct (String.eqb_spec text EmptyString) as [->|Hne'];
          [cbn; discriminate|].
        destruct (Js.JSON_parse text) as [v|] eqn:Hp; [|cbn; discriminate].
        cbn [negb orb]. destruct (Js.truthy v) eqn:Hv; [|discriminate].
        cbn [negb]. destruct (isTokenValid token now_ms) as [[|]|e] eqn:Hvalid;
          try discriminate.
        intros _. split; [reflexivity|]. exists token, text, v. auto 10.
      * cbn. rewrite orb_true_r. discriminate.
    + cbn. destruct (items st !! USER_DATA_KEY) as [text|]; [|discriminate].
      destruct (String.eqb text EmptyString); [discriminate|].
      destruct (Js.JSON_parse text); discriminate.
  - intros (_ & token & text & v & Ht & Hne & Hu & Hne' & Hp & Hv & Hvalid).
    rewrite Ht, Hu. cbn [truthy_string].
    destruct (String.eqb_spec token EmptyString); [contradiction|].
    destruct (String.eqb_spec text EmptyString); [contradiction|].
    rewrite Hp. cbn. rewrite Hv. cbn. now rewrite Hvalid.
Qed.

(** *** Lists of names *)

Lemma split_plain (name : list ascii) :
  Forall (fun c => c <> ","%char) name -> split_comma_space name = [name].
Proof.
  induction 1 as [|c rest Hc _ IH]; [reflexivity|].
  cbn [split_comma_space]. destruct rest as [|d rest']; [reflexivity|].
  destruct (Ascii.eqb_spec c ","%char) as [->|_]; [contradiction|].
  cbn [andb]. now rewrite IH.
Qed.

Lemma split_plain_then (name rest : list ascii) :
  Forall (fun c => c <> ","%char) name ->
  split_comma_space (name ++ ","%char :: " "%char :: rest)
  = name :: split_comma_space rest.
Proof.
  induction 1 as [|c name Hc _ IH]; [reflexivity|].
  cbn [app]. change (split_comma_space (c :: name ++ ","%char :: " "%char :: rest))
    with (match name ++ ","%char :: " "%char :: rest with
          | d :: rest' =>
              if Ascii.eqb c ","%char && Ascii.eqb d " "%char
              then [] :: split_comma_space rest'
              else match split_comma_space (name ++ ","%char :: " "%char :: rest) with
                   | piece :: pieces => (c :: piece) :: pieces
                   | [] => [[c]]
                   end
          | [] => [[c]]
          end).
  destruct (Ascii.eqb_spec c ","%char) as [->|_]; [contradiction|]. cbn [andb].
  rewrite IH. now destruct name.
Qed.

Lemma split_join (names : list (list ascii)) :
  names <> [] ->
  Forall (Forall (fun c => c <> ","%char)) names ->
  split_comma_space (join_comma_space names) = names.
Proof.
  induction names as [|name rest IH]; [congruence|]. intros _ Hall.
  inversion Hall as [|? ? Hname Hrest]; subst.
  destruct rest as [|name' rest'].
  - cbn. now apply split_plain.
  - change (join_comma_space (name :: name' :: rest'))
      with (name ++ ","%char :: " "%char :: join_comma_space (name' :: rest')).
    rewrite split_plain_then by assumption. f_equal. now apply IH.
Qed.

(** X18. [getUserCompanies()] and [getUserCompanyIds()] read back a list the
    server joined with a comma and a space: for names without comma and
    without white space at their ends, whose joined text is not empty, the
    answer is the list of names, in order. *)
Theorem list_member_reads_joined_names
    (st : AsyncStorage) (userData : Js.Value) (field : string)
    (names : list (list ascii)) :
  getUserData st = Return userData ->
  Js.truthy userData = true ->
  Js.get userData field
  = Return (Js.Str (string_of_list_ascii (join_comma_space names))) ->
  join_comma_space names <> [] ->
  Forall plain_name names ->
  list_member field st = Return (map string_of_list_ascii names).
Proof.
  intros Hdata Hv Hget Hne Hplain. unfold list_member. rewrite Hdata, Hv, Hget.
  cbn [negb Js.truthy].
  destruct (String.eqb_spec (string_of_list_ascii (join_comma_space names)) EmptyString)
    as [E|_].
  { apply (f_equal list_ascii_of_string) in E.
    rewrite list_ascii_of_string_of_list_ascii in E. contradiction. }
  cbn [negb]. unfold split_and_trim. rewrite list_ascii_of_string_of_list_ascii.
  rewrite split_join.
  - f_equal. apply map_ext_in. intros name Hin.
    rewrite Forall_forall in Hplain. apply list_elem_of_In in Hin. destruct (Hplain name Hin) as [_ ->]. reflexivity.
  - intros ->. now apply Hne.
  - eapply Forall_impl; [exact Hplain|]. now intros name [H _].
Qed.

(** X19. A user without the member, or with an empty text for it, has no
    names; so has a store without user data. *)
Theorem list_member_of_nothing (st : AsyncStorage) (userData : Js.Value) (field : string) :
  getUserData st = Return userData ->
  (Js.truthy userData = false
   \/ Js.get userData field = Return Js.Undefined
   \/ Js.get userData field = Return (Js.Str EmptyString)) ->
  list_member field st = Return [].
Proof.
  intros Hdata H. unfold list_member. rewrite Hdata.
  destruct (Js.truthy userData) eqn:Hv; [|reflexivity]. cbn [negb].
  destruct H as [H | [-> | ->]]; [discriminate | reflexivity | reflexivity].
Qed.

End Session.
Import Samples.

(** A login answered with the user of [aligned_token], on an empty
    store. *)
Lemma login_stores_what_it_returns_witness :
  let st' := snd (login (P := JsonText.platform) (login_ok aligned_token) empty_storage) in
  exists jwt,
    Js.get (user_of aligned_token) "jwt" = Return (Js.Str jwt)
    /\ getAuthToken st' = Return (Some jwt)
    /\ items st' !! USER_DATA_KEY
       = Some (Js.JSON_stringify (Platform := JsonText.platform) (user_of aligned_token)).
Proof.
  intros st'.
  destruct (login_stores_what_it_returns (P := JsonText.platform)
              (login_ok aligned_token) empty_storage (user_of aligned_token))
    as (jwt & H1 & H2 & H3 & _).
  - vm_compute. reflexivity.
  - exists jwt. auto.
Defined.

(** A login answered with 401 on an empty store. *)
Lemma failed_login_changes_nothing_witness :
  snd (login (P := JsonText.platform) (Response false 401 "Unauthorized") empty_storage)
  = empty_storage.
Proof.
  exact (proj1 (failed_login_changes_nothing (P := JsonText.platform)
                  (Response false 401 "Unauthorized") empty_storage
                  (Error "Login failed: 401 - Unauthorized") eq_refl)).
Defined.

(** Logging out of a session whose token is valid until 2100. *)
Lemma logout_ends_the_session_witness :
  isAuthenticated (P := JsonText.platform)
    (snd (logout (storage_with aligned_token))) today_ms
  = Return false.
Proof.
  exact (proj1 (proj2 (proj2 (proj2 (proj2
           (logout_ends_the_session (P := JsonText.platform)
              (storage_with aligned_token) eq_refl)))))
           today_ms).
Defined.

(** A user of two companies. *)
Lemma list_member_reads_joined_names_witness :
  let user := Js.Object [("companies"%string, Js.Str "Acme, Globex")] in
  let st := {| items := <[USER_DATA_KEY := JsonText.stringify user]> ∅;
               available := true |} in
  list_member (P := JsonText.platform) "companies" st
  = Return ["Acme"%string; "Globex"%string].
Proof.
  intros user st.
  apply (list_member_reads_joined_names (P := JsonText.platform) st user "companies"
           [list_ascii_of_string "Acme"; list_ascii_of_string "Globex"]).
  - vm_compute. reflexivity.
  - reflexivity.
  - reflexivity.
  - discriminate.
  - repeat constructor; discriminate.
Defined.

(** A store without user data. *)
Lemma list_member_of_nothing_witness :
  list_member (P := JsonText.platform) "companiesId" empty_storage = Return [].
Proof.
  apply (list_member_of_nothing (P := JsonText.platform) empty_storage Js.Null
           "companiesId").
  - reflexivity.
  - left. reflexivity.
Defined.

End SessionFacts.

(** ** [base64Decode]: the length of what it answers, and the payloads it
       reads back *)

Module Base64RoundTrip.
Import ApiAuth Base64Facts Samples.

Lemma length_decode_group a b c d :
  c <> 64%Z -> d <> 64%Z -> length (decode_group a b c d) = 3.
Proof.
  intros Hc Hd. unfold decode_group.
  destruct (Z.eqb_spec c 64); [contradiction|].
  destruct (Z.eqb_spec d 64); [contradiction|]. reflexivity.
Qed.

Lemma length_decode_loop : forall str,
  length (decode_loop str) = 3 * ((length str + 3) / 4).
Proof.
  induction str as [| a | a b | a b c | a b c d rest IH] using list_ind4;
    try (cbn [decode_loop]; rewrite ?app_nil_r, length_decode_group
           by apply index_at_not_64; reflexivity).
  - reflexivity.
  - cbn [decode_loop]. rewrite length_app, length_decode_group by apply index_at_not_64.
    rewrite IH. cbn [length].
    replace (S (S (S (S (length rest)))) + 3) with ((length rest + 3) + 1 * 4) by lia.
    rewrite Nat.div_add by lia. lia.
Qed.

Lemma pad_rounds_up : forall str,
  (length (pad 3 str) + 3) / 4 = (length str + 3) / 4.
Proof.
  induction str as [| a | a b | a b c | a b c d rest IH] using list_ind4;
    try reflexivity.
  rewrite pad_group. cbn [length].
  replace (S (S (S (S (length (pad 3 rest))))) + 3)
    with ((length (pad 3 rest) + 3) + 1 * 4) by lia.
  replace (S (S (S (S (length rest)))) + 3) with ((length rest + 3) + 1 * 4) by lia.
  rewrite !Nat.div_add by lia. now rewrite IH.
Qed.

Lemma length_string_of_list (l : list ascii) :
  String.length (string_of_list_ascii l) = length l.
Proof. induction l as [|c l IH]; cbn; [reflexivity | now rewrite IH]. Qed.

Lemma length_list_of_string (s : string) :
  length (list_ascii_of_string s) = String.length s.
Proof. induction s as [|c s IH]; cbn; [reflexivity | now rewrite IH]. Qed.

(** X20. [base64Decode] answers three characters for every four of its input,
    the last group rounded up: it never drops a character for padding. *)
Theorem base64Decode_length (str : string) :
  String.length (base64Decode str) = 3 * ((String.length str + 3) / 4).
Proof.
  unfold base64Decode.
  now rewrite length_string_of_list, length_decode_loop, pad_rounds_up,
    length_list_of_string.
Qed.

(** *** Reading back what an issuer encoded *)

Lemma replace_all_to_standard (l : list ascii) :
  replace_all "_"%char "/"%char (replace_all "-"%char "+"%char l) = map to_standard l.
Proof. unfold replace_all. rewrite map_map. reflexivity. Qed.

Lemma index_of_sextet (m : N) :
  (m < 64)%N -> index_at (Some (to_standard (sextet m))) = Z.of_N m.
Proof.
  intros Hm. rewrite <- (N2Nat.id m). assert (Hk : N.to_nat m < 64) by lia.
  generalize dependent (N.to_nat m). clear. intros k Hk.
  do 64 (destruct k as [|k]; [reflexivity|]). lia.
Qed.

Lemma sextet_no_dot (m : N) : sextet m <> "."%char.
Proof.
  unfold sextet. generalize (N.to_nat m). intros k.
  do 64 (destruct k as [|k]; [discriminate|]). discriminate.
Qed.

Lemma lor_of_sextets (z : Z) :
  (0 <= z)%Z ->
  Z.lor (Z.lor (Z.lor (Z.shiftl (z / 2 ^ 18) 18) (Z.shiftl ((z / 2 ^ 12) mod 2 ^ 6) 12))
               (Z.shiftl ((z / 2 ^ 6) mod 2 ^ 6) 6))
        (z mod 2 ^ 6) = z.
Proof.
  intros Hz. apply Z.bits_inj'. intros k Hk.
  rewrite !Z.lor_spec, !Z.shiftl_spec by lia.
  destruct (Z.lt_ge_cases k 6) as [H6|H6].
  { rewrite (Z.testbit_neg_r _ (k - 18)), (Z.testbit_neg_r _ (k - 12)),
      (Z.testbit_neg_r _ (k - 6)) by lia.
    rewrite Z.mod_pow2_bits_low by lia. reflexivity. }
  rewrite (Z.mod_pow2_bits_high z 6 k) by lia. rewrite orb_false_r.
  destruct (Z.lt_ge_cases k 12) as [H12|H12].
  { rewrite (Z.testbit_neg_r _ (k - 18)), (Z.testbit_neg_r _ (k - 12)) by lia.
    rewrite Z.mod_pow2_bits_low, Z.div_pow2_bits by lia.
    cbn [orb]. f_equal. lia. }
  rewrite (Z.mod_pow2_bits_high _ 6 (k - 6)) by lia. rewrite orb_false_r.
  destruct (Z.lt_ge_cases k 18) as [H18|H18].
  { rewrite (Z.testbit_neg_r _ (k - 18)) by lia.
    rewrite Z.mod_pow2_bits_low, Z.div_pow2_bits by lia.
    cbn [orb]. f_equal. lia. }
  rewrite (Z.mod_pow2_bits_high _ 6 (k - 12)) by lia. rewrite orb_false_r.
  rewrite Z.div_pow2_bits by lia. f_equal. lia.
Qed.

(** One group: three bytes, encoded and decoded. *)
Lemma decode_encoded_group (a b c : ascii) :
  let n := (N_of_ascii a * 65536 + N_of_ascii b * 256 + N_of_ascii c)%N in
  decode_group (index_at (Some (to_standard (sextet (n / 262144)))))
               (index_at (Some (to_standard (sextet ((n / 4096) mod 64)))))
               (index_at (Some (to_standard (sextet ((n / 64) mod 64)))))
               (index_at (Some (to_standard (sextet (n mod 64)))))
  = [a; b; c].
Proof.
  intros n.
  pose proof (N_ascii_bounded a) as Ha. pose proof (N_ascii_bounded b) as Hb.
  pose proof (N_ascii_bounded c) as Hc.
  assert (Hn : (n < 16777216)%N) by (unfold n; lia).
  rewrite !index_of_sextet
    by (try apply N.mod_lt; try apply N.Div0.div_lt_upper_bound; lia).
  unfold decode_group.
  rewrite !N2Z.inj_mod, !N2Z.inj_div.
  change (Z.of_N 262144) with (2 ^ 18)%Z. change (Z.of_N 4096) with (2 ^ 12)%Z.
  change (Z.of_N 64) with (2 ^ 6)%Z.
  rewrite lor_of_sextets by lia.
  destruct (Z.eqb_spec ((Z.of_N n / 2 ^ 6) mod 2 ^ 6) 64) as [E|_].
  { pose proof (Z.mod_pos_bound (Z.of_N n / 2 ^ 6) (2 ^ 6) ltac:(lia)). lia. }
  destruct (Z.eqb_spec (Z.of_N n mod 2 ^ 6) 64) as [E|_].
  { pose proof (Z.mod_pos_bound (Z.of_N n) (2 ^ 6) ltac:(lia)). lia. }
  assert (Hz : Z.of_N n
               = (Z.of_N (N_of_ascii a) * 65536 + Z.of_N (N_of_ascii b) * 256
                  + Z.of_N (N_of_ascii c))%Z) by (unfold n; lia).
  change 255%Z with (Z.ones 8). rewrite !Z.land_ones, !Z.shiftr_div_pow2 by lia.
  change (2 ^ 16)%Z with 65536%Z. change (2 ^ 8)%Z with 256%Z.
  assert (H1 : ((Z.of_N n / 65536) mod 256 = Z.of_N (N_of_ascii a))%Z)
    by (rewrite Hz; Z.div_mod_to_equations; lia).
  assert (H2 : ((Z.of_N n / 256) mod 256 = Z.of_N (N_of_ascii b))%Z)
    by (rewrite Hz; Z.div_mod_to_equations; lia).
  assert (H3 : (Z.of_N n mod 256 = Z.of_N (N_of_ascii c))%Z)
    by (rewrite Hz; Z.div_mod_to_equations; lia).
  rewrite H1, H2, H3. unfold fromCharCode. rewrite !N2Z.id, !ascii_N_embedding.
  reflexivity.
Qed.

Lemma list_ind3 {T : Type} (Q : list T -> Prop) :
  Q [] -> (forall a, Q [a]) -> (forall a b, Q [a; b]) ->
  (forall a b c rest, Q rest -> Q (a :: b :: c :: rest)) ->
  forall l, Q l.
Proof.
  intros H0 H1 H2 H3. fix IH 1.
  intros [|a [|b [|c rest]]]; [apply H0 | apply H1 | apply H2 | apply H3, IH].
Qed.

Lemma base64url_no_dot (bytes : list ascii) :
  Forall (fun c => c <> "."%char) (base64url bytes).
Proof.
  induction bytes as [| a | a b | a b c rest IH] using list_ind3; cbn [base64url].
  - constructor.
  - repeat constructor; apply sextet_no_dot.
  - repeat constructor; apply sextet_no_dot.
  - cbn [app]. repeat (constructor; [apply sextet_no_dot|]). exact IH.
Qed.

Lemma length_base64url (bytes : list ascii) :
  length bytes mod 3 = 0 -> length (base64url bytes) mod 4 = 0.
Proof.
  induction bytes as [| a | a b | a b c rest IH] using list_ind3; cbn [base64url];
    try (cbn; discriminate); [reflexivity|].
  intros H. cbn [length app] in *.
  replace (S (S (S (length rest)))) with (length rest + 1 * 3) in H by lia.
  rewrite Nat.Div0.mod_add in H.
  replace (S (S (S (S (length (base64url rest))))))
    with (length (base64url rest) + 1 * 4) by lia.
  rewrite Nat.Div0.mod_add. now apply IH.
Qed.

Lemma pad_aligned (str : list ascii) : length str mod 4 = 0 -> pad 3 str = str.
Proof. intros H. cbn [pad]. now rewrite H. Qed.

(** Encoded by the issuer and decoded by the check, a text whose length
    is a multiple of 3 comes back as it was. *)
Lemma decode_encoded : forall bytes,
  length bytes mod 3 = 0 ->
  decode_loop (map to_standard (base64url bytes)) = bytes.
Proof.
  induction bytes as [| a | a b | a b c rest IH] using list_ind3;
    try (cbn; discriminate); [reflexivity|].
  intros H. cbn [length] in H.
  replace (S (S (S (length rest)))) with (length rest + 1 * 3) in H by lia.
  rewrite Nat.Div0.mod_add in H.
  cbn [base64url app map decode_loop].
  rewrite (decode_encoded_group a b c). cbn [app]. now rewrite IH.
Qed.

Lemma split_piece sep (piece rest : list ascii) :
  Forall (fun c => c <> sep) piece ->
  split sep (piece ++ sep :: rest) = piece :: split sep rest.
Proof.
  induction 1 as [|c piece Hc _ IH]; cbn [app split].
  - now rewrite Ascii.eqb_refl.
  - destruct (Ascii.eqb_spec c sep); [contradiction|]. now rewrite IH.
Qed.

(** X21. A token whose payload piece is the Base64url encoding of a text of
    3k characters: the check reads back exactly that text.  (With any
    other length the text read ends with characters of code 255.) *)
Theorem payload_of_issued_token (header signature bytes : list ascii) :
  Forall (fun c => c <> "."%char) header ->
  length bytes mod 3 = 0 ->
  payload_text
    (string_of_list_ascii (header ++ "."%char :: base64url bytes ++ "."%char :: signature))
  = Some (string_of_list_ascii bytes).
Proof.
  intros Hh Hlen. unfold payload_text.
  rewrite list_ascii_of_string_of_list_ascii, (split_piece _ header) by assumption.
  rewrite (split_piece _ (base64url bytes)) by apply base64url_no_dot.
  cbn [nth_error]. f_equal. unfold base64Decode.
  rewrite list_ascii_of_string_of_list_ascii, replace_all_to_standard.
  rewrite pad_aligned by (rewrite length_map; now apply length_base64url).
  now rewrite decode_encoded.
Qed.

(** X22. A token issued with a payload of 3k bytes that is JSON with a
    numeric [exp] is valid exactly until it expires: the check answers
    whether [exp] is after the current time in seconds. *)
Theorem issued_token_valid_until_expiry {P : Js.Platform}
    (header signature bytes : list ascii) (payload : Js.Value) (exp : Js.Number)
    (now_ms : Z) :
  Forall (fun c => c <> "."%char) header ->
  length bytes mod 3 = 0 ->
  Js.JSON_parse (string_of_list_ascii bytes) = Some payload ->
  Js.get payload "exp" = Return (Js.Num exp) ->
  isTokenValid
    (string_of_list_ascii (header ++ "."%char :: base64url bytes ++ "."%char :: signature))
    now_ms
  = Return (Js.number_gt exp (currentTime now_ms)).
Proof.
  intros Hh Hlen Hparse Hexp. unfold isTokenValid.
  rewrite ApiAuthFacts.isTokenValid_try_unfold.
  unfold payload_text.
  rewrite list_ascii_of_string_of_list_ascii, (split_piece _ header) by assumption.
  rewrite (split_piece _ (base64url bytes)) by apply base64url_no_dot.
  cbn [nth_error]. unfold base64Decode.
  rewrite list_ascii_of_string_of_list_ascii, replace_all_to_standard.
  rewrite pad_aligned by (rewrite length_map; now apply length_base64url).
  rewrite decode_encoded by assumption. rewrite Hparse, Hexp. reflexivity.
Qed.

(** The payload of [aligned_token], 18 bytes. *)
Lemma payload_of_issued_token_witness :
  payload_text aligned_token = Some (JsonText.stringify aligned_payload).
Proof.
  refine (payload_of_issued_token
            (list_ascii_of_string "eyJhbGciOiJIUzI1NiIsInR5cCI6IkpXVCJ9")
            (list_ascii_of_string "c2ln")
            (JsonText.print aligned_payload) _ eq_refl).
  cbn. repeat first [apply List.Forall_nil | apply List.Forall_cons; [discriminate|]].
Defined.

(** [aligned_token], which expires in 2100, checked in 2023. *)
Lemma issued_token_valid_until_expiry_witness :
  isTokenValid (P := JsonText.platform) aligned_token today_ms = Return true.
Proof.
  refine (issued_token_valid_until_expiry (P := JsonText.platform)
            (list_ascii_of_string "eyJhbGciOiJIUzI1NiIsInR5cCI6IkpXVCJ9")
            (list_ascii_of_string "c2ln")
            (JsonText.print aligned_payload) aligned_payload
            (Js.Finite (inject_Z year_2100)) today_ms _ eq_refl _ eq_refl).
  - cbn. repeat first [apply List.Forall_nil | apply List.Forall_cons; [discriminate|]].
  - vm_compute. reflexivity.
Defined.

End Base64RoundTrip.

(** ** Expired tokens *)

Module ExpiredTokenFacts.
Import ApiAuth Base64Facts ApiAuthFacts Base64RoundTrip Samples.

Lemma length_base64url_unaligned (bytes : list ascii) :
  length bytes mod 3 <> 0 -> length (base64url bytes) mod 4 <> 0.
Proof.
  induction bytes as [| a | a b | a b c rest IH] using list_ind3; cbn [base64url].
  - intros H. now cbn in H.
  - intros _. cbn. discriminate.
  - intros _. cbn. discriminate.
  - intros H. cbn [length app] in *.
    replace (S (S (S (length rest)))) with (length rest + 1 * 3) in H by lia.
    rewrite Nat.Div0.mod_add in H.
    replace (S (S (S (S (length (base64url rest))))))
      with (length (base64url rest) + 1 * 4) by lia.
    rewrite Nat.Div0.mod_add. now apply IH.
Qed.

(** The piece of a token the check decodes is the encoded payload. *)
Lemma payload_piece (header signature bytes : list ascii) :
  Forall (fun c => c <> "."%char) header ->
  nth_error
    (split "."%char
       (list_ascii_of_string
          (string_of_list_ascii
             (header ++ "."%char :: base64url bytes ++ "."%char :: signature))))
    1
  = Some (base64url bytes).
Proof.
  intros Hh.
  rewrite list_ascii_of_string_of_list_ascii, (split_piece _ header) by assumption.
  now rewrite (split_piece _ (base64url bytes)) by apply base64url_no_dot.
Qed.

Lemma payload_text_aligned (header signature bytes : list ascii) :
  Forall (fun c => c <> "."%char) header ->
  length bytes mod 3 = 0 ->
  payload_text
    (string_of_list_ascii (header ++ "."%char :: base64url bytes ++ "."%char :: signature))
  = Some (string_of_list_ascii bytes).
Proof.
  intros Hh Hlen. unfold payload_text. rewrite payload_piece by assumption.
  f_equal. unfold base64Decode.
  rewrite list_ascii_of_string_of_list_ascii, replace_all_to_standard.
  rewrite pad_aligned by (rewrite length_map; now apply length_base64url).
  now rewrite decode_encoded.
Qed.

(** C4. An expired JWT is rejected.  The token is
    [header.payload.signature] with the payload piece the Base64url
    encoding of the bytes the issuer signed; these bytes are JSON with a
    numeric [exp] not after the current time in seconds ([exp <= now]).
    Then the validity check answers [false], and so does
    [isAuthenticated()] for a store that holds the token.  ([JSON.parse]
    rejects a text that ends with the character of code 255, which is
    what the check decodes when the payload has not 3k bytes.) *)
Theorem expired_jwt_is_rejected {P : Js.Platform}
    (header signature bytes : list ascii) (payload : Js.Value) (exp : Js.Number)
    (now_ms : Z) (st : AsyncStorage) :
  rejects_trailing_255 ->
  Forall (fun c => c <> "."%char) header ->
  Js.JSON_parse (string_of_list_ascii bytes) = Some payload ->
  Js.get payload "exp" = Return (Js.Num exp) ->
  Js.not_after exp (currentTime now_ms) ->
  let token :=
    string_of_list_ascii (header ++ "."%char :: base64url bytes ++ "."%char :: signature) in
  isTokenValid token now_ms = Return false
  /\ (getItem AUTH_TOKEN_KEY st = Return (Some token) ->
      isAuthenticated st now_ms = Return false).
Proof.
  intros Hrej Hh Hparse Hexp Hpast. cbn zeta.
  destruct (Nat.eq_dec (length bytes mod 3) 0) as [Hlen|Hlen].
  - exact (past_exp_is_rejected _ (string_of_list_ascii bytes) payload exp now_ms st
             (payload_text_aligned header signature bytes Hh Hlen) Hparse Hexp Hpast).
  - assert (Hbad : isTokenValid
                     (string_of_list_ascii
                        (header ++ "."%char :: base64url bytes ++ "."%char :: signature))
                     now_ms = Return false).
    { apply unpadded_payload_is_rejected with (base64url bytes).
      - exact Hrej.
      - now apply payload_piece.
      - now apply length_base64url_unaligned. }
    split; [exact Hbad|].
    intros Hget. now apply isAuthenticated_invalid_token with
      (string_of_list_ascii
         (header ++ "."%char :: base64url bytes ++ "."%char :: signature)).
Qed.

(** C4, on two tokens that expired in 1970: one with a payload of 9
    bytes, which the check reads back, and one with a payload of 10 bytes,
    which it does not. *)
Lemma expired_jwt_is_rejected_witness :
  let ten := Js.Object [("exp"%string, Js.Num (Js.Finite (inject_Z 10)))] in
  isTokenValid (P := JsonText.platform) expired_token today_ms = Return false
  /\ isAuthenticated (P := JsonText.platform) (storage_with expired_token) today_ms
     = Return false
  /\ isTokenValid (P := JsonText.platform) (jwt_of ten) today_ms = Return false.
Proof.
  intros ten.
  assert (Hheader : Forall (fun c => c <> "."%char)
                      (list_ascii_of_string "eyJhbGciOiJIUzI1NiIsInR5cCI6IkpXVCJ9")).
  { cbn. repeat first [apply List.Forall_nil | apply List.Forall_cons; [discriminate|]]. }
  destruct (expired_jwt_is_rejected (P := JsonText.platform)
              (list_ascii_of_string "eyJhbGciOiJIUzI1NiIsInR5cCI6IkpXVCJ9")
              (list_ascii_of_string "c2ln")
              (JsonText.print expired_payload) expired_payload
              (Js.Finite (inject_Z 1)) today_ms (storage_with expired_token)
              JsonTextFacts.platform_rejects_trailing_255 Hheader)
    as [H1 H2].
  - vm_compute. reflexivity.
  - reflexivity.
  - vm_compute. discriminate.
  - destruct (expired_jwt_is_rejected (P := JsonText.platform)
                (list_ascii_of_string "eyJhbGciOiJIUzI1NiIsInR5cCI6IkpXVCJ9")
                (list_ascii_of_string "c2ln")
                (JsonText.print ten) ten
                (Js.Finite (inject_Z 10)) today_ms empty_storage
                JsonTextFacts.platform_rejects_trailing_255 Hheader)
      as [H3 _].
    + vm_compute. reflexivity.
    + reflexivity.
    + vm_compute. discriminate.
    + split; [exact H1|]. split; [apply H2; reflexivity | exact H3].
Defined.

End ExpiredTokenFacts.

(** ** Location tracking: the flags and the watch *)

Module TrackingFacts.
Import Tracking.

Lemma step_consistent (w : World) (e : Event) :
  (watchId (fst w) = None ->
   isTracking (fst w) = false /\ mockLocationEnabled (fst w) = false) ->
  watchId (fst (step w e)) = None ->
  isTracking (fst (step w e)) = false
  /\ mockLocationEnabled (fst (step w e)) = false.
Proof.
  destruct w as [[wid tr mock] log]. cbn [fst].
  destruct e as [p watch | a h i | | ]; cbn [step].
  - unfold startLocationTracking. cbn.
    destruct tr; cbn; [easy|]. destruct p; cbn; [|easy].
    destruct watch; cbn; [discriminate | easy].
  - unfold watch_error. cbn.
    destruct (a && negb mock); cbn; [discriminate|]. now destruct h.
  - unfold updateMockLocation. cbn. now destruct (negb tr || negb mock).
  - unfold stopLocationTracking. cbn. destruct wid; [|easy].
    destruct mock; cbn; auto.
Qed.

Lemma run_consistent_from (events : list Event) : forall w,
  (watchId (fst w) = None ->
   isTracking (fst w) = false /\ mockLocationEnabled (fst w) = false) ->
  watchId (fst (fold_left step events w)) = None ->
  isTracking (fst (fold_left step events w)) = false
  /\ mockLocationEnabled (fst (fold_left step events w)) = false.
Proof.
  induction events as [|e rest IH]; intros w H; [exact H|].
  cbn [fold_left]. apply IH. now apply step_consistent.
Qed.

(** X23. Whatever happened before, [stopLocationTracking()] ends the
    tracking: afterwards [isLocationTracking()] is [false], no watch id is
    held and the mock updates are off. *)
Theorem stop_always_stops (events : list Event) :
  let w := stopLocationTracking (run events) in
  isLocationTracking w = false
  /\ watchId (fst w) = None
  /\ mockLocationEnabled (fst w) = false.
Proof.
  cbn zeta. pose proof (run_consistent_from events (initial, []) ltac:(easy)) as H.
  fold (run events) in H. destruct (run events) as [[wid tr mock] log].
  cbn in H. unfold stopLocationTracking, isLocationTracking.
  cbn. destruct wid as [id|].
  - destruct mock; cbn; auto.
  - destruct (H eq_refl) as [-> ->]. auto.
Qed.

(** X24. On Android, a watch that reports an error is swapped for the mock
    interval and never cleared: after the error and a stop the platform
    has been asked to set and clear the interval, and the service is back
    in its initial state, but [clearWatch] was not called for the watch. *)
Theorem watch_is_left_open_after_an_error
    (s : Service) (log : list PlatformCall) (watch interval : nat) (has_onError : bool) :
  watchId s = Some watch ->
  mockLocationEnabled s = false ->
  stopLocationTracking (watch_error true has_onError interval (s, log))
  = (initial, log ++ [SetInterval interval; ClearInterval interval]).
Proof.
  intros Hw Hm. unfold watch_error. cbn [fst]. rewrite Hm. cbn.
  now rewrite <- app_assoc.
Qed.

(** A watch with id 7 that reports an error and is then stopped. *)
Lemma watch_is_left_open_after_an_error_witness :
  let w := snd (startLocationTracking true (Return 7) (initial, [])) in
  stopLocationTracking (watch_error true false 9 w)
  = (initial, [WatchPosition 7; SetInterval 9; ClearInterval 9]).
Proof.
  exact (watch_is_left_open_after_an_error
           {| watchId := Some 7; isTracking := true; mockLocationEnabled := false |}
           [WatchPosition 7] 7 9 false eq_refl eq_refl).
Defined.

End TrackingFacts.

(** ** The location callback: what reaches the backend *)

Module ActiveTripFacts.
Import ActiveTrip.

Section Screen.
Context {num : Type}.
Variable firestore_update : nat -> result unit.
Variable firestore_add : nat -> bool.
Variable valid_date : num -> bool.

Local Abbreviation Loc := (@Haversine.Location num).
Local Abbreviation Coord := (@TripLocation.Coordinate num).
Local Abbreviation handle :=
  (handleLocationUpdate firestore_update firestore_add valid_date).

(** One callback: the Firestore write it issues, and where the location
    goes. *)
Lemma handleLocationUpdate_step (tripId : string) (w : @World num) (loc : Loc) :
  tripId <> EmptyString ->
  let ok := is_return
              (firestore_update (length (TripLocation.update_calls (snd (tracking w))))) in
  let w1 := handle tripId w loc in
  routePath w1 = routePath w ++ [loc]
  /\ TripLocation.update_calls (snd (tracking w1))
     = TripLocation.update_calls (snd (tracking w)) ++ [(tripId, coordinate_of loc, ok)]
  /\ posted w1
     = posted w ++ (if ok && valid_date (Haversine.timestamp loc)
                    then [(tripId, coordinate_of loc)] else [])
  /\ TripLocation.pendingUpdates (fst (tracking w1))
     = TripLocation.pendingUpdates (fst (tracking w))
       ++ (if ok then [] else [coordinate_of loc]).
Proof.
  intros Hne. cbn zeta. unfold handleLocationUpdate. cbn [truthy_string].
  destruct (String.eqb_spec tripId EmptyString) as [E|_]; [contradiction|].
  cbn [negb]. unfold TripLocation.updateCurrentLocation.
  destruct (tracking w) as [s db]. cbn [snd fst].
  destruct (firestore_update (length (TripLocation.update_calls db))) as [[]|e];
    cbn [routePath posted tracking fst snd is_return andb TripLocation.push_pending
         TripLocation.pendingUpdates TripLocation.log_update TripLocation.update_calls].
  - unfold TripLocation.addToHistory.
    destruct (firestore_add (length (TripLocation.update_calls db)));
      cbn [TripLocation.update_calls TripLocation.log_update];
      destruct (valid_date (Haversine.timestamp loc));
      rewrite ?app_nil_r; auto.
  - rewrite ?app_nil_r. auto.
Qed.

(** X25. After any run of location callbacks of a trip: the path holds every
    location, and one Firestore write was issued per location, in call
    order.  A location whose write failed is in the pending queue and was
    not sent to the backend; one whose write succeeded was sent (if its
    timestamp is a date) and is not queued.  So the backend misses exactly
    the locations the queue holds. *)
Theorem backend_misses_what_is_queued
    (tripId : string) (locations : list Loc) (w : @World num) :
  tripId <> EmptyString ->
  let w' := fold_left (handle tripId) locations w in
  let attempts :=
    TripLocation.attempts_from firestore_update
      (length (TripLocation.update_calls (snd (tracking w))))
      tripId (map coordinate_of locations) in
  routePath w' = routePath w ++ locations
  /\ TripLocation.update_calls (snd (tracking w'))
     = TripLocation.update_calls (snd (tracking w)) ++ attempts
  /\ posted w'
     = posted w
       ++ map fst
            (List.filter
               (fun a : string * Coord * bool =>
                  snd a && valid_date (TripLocation.timestamp (snd (fst a))))
               attempts)
  /\ TripLocation.pendingUpdates (fst (tracking w'))
     = TripLocation.pendingUpdates (fst (tracking w))
       ++ map (fun a : string * Coord * bool => snd (fst a))
            (List.filter (fun a : string * Coord * bool => negb (snd a)) attempts).
Proof.
  intros Hne. revert w. induction locations as [|loc rest IH]; intros w; cbn zeta.
  - cbn. now rewrite !app_nil_r.
  - cbn [fold_left map TripLocation.attempts_from].
    destruct (handleLocationUpdate_step tripId w loc Hne) as (S1 & S2 & S3 & S4).
    destruct (IH (handle tripId w loc)) as (H1 & H2 & H3 & H4).
    cbn zeta in *. rewrite H1, H2, H3, H4, S1, S2, S3, S4. clear H1 H2 H3 H4 S1 S2 S3 S4 IH.
    rewrite length_app, Nat.add_1_r. cbn [length List.filter map fst snd].
    cbn [coordinate_of TripLocation.timestamp].
    destruct (is_return
                (firestore_update (length (TripLocation.update_calls (snd (tracking w))))));
      cbn [andb negb];
      destruct (valid_date (Haversine.timestamp loc));
      cbn [map fst snd]; rewrite <- ?app_assoc; cbn [app]; rewrite ?app_nil_r; auto.
Qed.

End Screen.

Import Samples.

(** Two callbacks of trip-1, the first while Firestore is down: the
    first location is queued, the second is sent. *)
Lemma backend_misses_what_is_queued_witness :
  let w := {| routePath := []; currentLocation := None;
              tracking := (TripLocation.initial,
                           {| TripLocation.update_calls := [];
                              TripLocation.history_docs := [] |});
              posted := [] |} in
  let w' := fold_left
              (handleLocationUpdate (offline_for 1) history_up (fun _ : R => true)
                 "trip-1")
              [zocalo; alameda] w in
  routePath w' = [zocalo; alameda]
  /\ TripLocation.update_calls (snd (tracking w'))
     = [("trip-1"%string, coordinate_of zocalo, false);
        ("trip-1"%string, coordinate_of alameda, true)]
  /\ posted w' = [("trip-1"%string, coordinate_of alameda)]
  /\ TripLocation.pendingUpdates (fst (tracking w')) = [coordinate_of zocalo].
Proof.
  intros w w'.
  exact (backend_misses_what_is_queued (offline_for 1) history_up
           (fun _ : R => true) "trip-1"%string [zocalo; alameda] w
           ltac:(discriminate)).
Defined.

End ActiveTripFacts.

(** ** Total distance over waypoints *)

Module TotalDistanceFacts.
Import Haversine.

Section Total.
Context {num : Type} {A : Arith num}.

Local Abbreviation Loc := (@Location num).

Lemma sum_legs_app (rest : list Loc) : forall total prev p,
  sum_legs total prev (rest ++ [p])
  = add (sum_legs total prev rest) (calculateDistance (List.last rest prev) p).
Proof.
  induction rest as [|q rest IH]; intros total prev p; [reflexivity|].
  cbn [app sum_legs]. rewrite IH. f_equal. f_equal.
  destruct rest as [|r rest]; [reflexivity|].
  change (List.last (q :: r :: rest) prev) with (List.last (r :: rest) prev).
  apply MockTripRecordFacts.last_cons_default.
Qed.

(** X26. One more waypoint adds one leg: the total over a path that is not
    empty, extended by a point, is the total over the path plus the
    distance from its last point to the new one; over fewer than two
    waypoints the total is 0. *)
Theorem one_more_waypoint_adds_a_leg (waypoints : list Loc) (first p : Loc) :
  waypoints <> [] ->
  calculateTotalDistance (waypoints ++ [p])
  = add (calculateTotalDistance waypoints)
        (calculateDistance (List.last waypoints first) p)
  /\ calculateTotalDistance [] = literal 0
  /\ calculateTotalDistance [first] = literal 0.
Proof.
  intros Hne. split; [|split; reflexivity].
  destruct waypoints as [|a [|b rest]]; [congruence | reflexivity |].
  unfold calculateTotalDistance.
  replace (length ((a :: b :: rest) ++ [p]) <? 2)%nat with false
    by (symmetry; apply Nat.ltb_ge; cbn; lia).
  cbn [length Nat.ltb Nat.leb app].
  rewrite (sum_legs_app (b :: rest) (literal 0) a p). f_equal. f_equal.
  change (List.last (a :: b :: rest) first) with (List.last (b :: rest) first).
  apply MockTripRecordFacts.last_cons_default.
Qed.

Variable finite : num -> Prop.

Lemma calculateDistance_self (L : ExactAtZero finite) (p : Loc) :
  finite (latitude p) -> finite (longitude p) ->
  finite (Math_cos (toRad (latitude p))) ->
  calculateDistance p p = literal 0.
Proof.
  intros Hlat Hlon Hcos. unfold calculateDistance.
  rewrite (sub_self L _ Hlat), (sub_self L _ Hlon).
  assert (Hrad : toRad (literal 0) = literal 0).
  { unfold toRad. now rewrite (zero_times_pi L), (zero_div_180 L). }
  rewrite Hrad, (zero_div_2 L), (sin_zero L), (zero_times_zero L).
  rewrite (zero_times_square L _ Hcos), (zero_plus_zero L).
  rewrite (sqrt_zero L), (one_minus_zero L), (sqrt_one L), (atan2_zero_one L).
  now rewrite (two_times_zero L), (radius_times_zero L).
Qed.

Lemma sum_legs_standing (L : ExactAtZero finite) (p : Loc) (n : nat) :
  finite (latitude p) -> finite (longitude p) ->
  finite (Math_cos (toRad (latitude p))) ->
  sum_legs (literal 0) p (repeat p n) = literal 0.
Proof.
  intros H1 H2 H3. induction n as [|n IH]; [reflexivity|].
  cbn [repeat sum_legs].
  rewrite (calculateDistance_self L p H1 H2 H3).
  now rewrite (zero_plus_zero L).
Qed.

(** X27. A trip that never moved has travelled 0 km: the total over any
    number of waypoints at one and the same point is 0 (the point has
    finite coordinates, and the arithmetic is exact at zero and one). *)
Theorem standing_still_is_no_distance (p : Loc) (n : nat) :
  ExactAtZero finite ->
  finite (latitude p) -> finite (longitude p) ->
  finite (Math_cos (toRad (latitude p))) ->
  calculateTotalDistance (repeat p n) = literal 0.
Proof.
  intros L H1 H2 H3. unfold calculateTotalDistance.
  destruct n as [|[|n]]; [reflexivity | reflexivity |].
  cbn [repeat length Nat.ltb Nat.leb].
  exact (sum_legs_standing L p (S n) H1 H2 H3).
Qed.

End Total.

Import Samples.

(** In the reals, on a path of one point. *)
Lemma one_more_waypoint_adds_a_leg_witness :
  calculateTotalDistance (A := real_arith) [zocalo; zocalo]
  = (calculateTotalDistance (A := real_arith) [zocalo]
     + calculateDistance (A := real_arith) zocalo zocalo)%R.
Proof.
  exact (proj1 (one_more_waypoint_adds_a_leg (A := real_arith) [zocalo] zocalo zocalo
                  ltac:(discriminate))).
Defined.

(** In the reals, three readings on the Zocalo. *)
Lemma standing_still_is_no_distance_witness :
  calculateTotalDistance (A := real_arith) [zocalo; zocalo; zocalo] = 0%R.
Proof.
  exact (standing_still_is_no_distance (A := real_arith) (fun _ => True) zocalo 3
           HaversineFacts.real_exact_at_zero I I I).
Defined.

End TotalDistanceFacts.
